(** * The event-dispatch engine of the worker scope

    A shallow embedding of [packages/core/src/standards/event.ts]:
    [FetchEvent], [ScheduledEvent] and [ServiceWorkerGlobalScope] with its
    two dispatchers.  Mutable objects become records threaded through the
    functions; promises are identities whose settlements are recorded in a
    chronological history; an [async] function becomes a start function and
    a resume function around an explicit continuation. *)

From Stdlib Require Import ZArith.
From stdpp Require Import base decidable option list strings countable gmap.

Open Scope Z_scope.

(** ** Values *)

(** An [Error] object. *)
Record JsError := mkError {
  err_name : string;
  err_message : string;
  err_stack : string
}.

Record Response := mkResponse {
  res_status : Z;
  res_body : string
}.

(** The values of the program.  Any of them can be thrown and can be the
    reason a promise is rejected with: the [catch] clauses of the file bind
    [error: any] and [e: any]. *)
Inductive JsValue :=
| VUndefined
| VNull
| VNumber (n : Z)
| VString (s : string)
| VResponse (r : Response)
| VError (e : JsError).

Coercion VError : JsError >-> JsValue.

#[global] Instance JsError_eq_dec : EqDecision JsError.
Proof. solve_decision. Defined.
#[global] Instance Response_eq_dec : EqDecision Response.
Proof. solve_decision. Defined.
#[global] Instance JsValue_eq_dec : EqDecision JsValue.
Proof. solve_decision. Defined.

(** [new DOMException(message, name)] and [new TypeError(message)]. *)
Definition DOMException (message name : string) : JsError :=
  mkError name message (name +:+ ": " +:+ message).

Definition TypeError (message : string) : JsError :=
  mkError "TypeError" message ("TypeError: " +:+ message).

(** What reading a property of [undefined] or [null] throws. *)
Definition cannot_read (name base : string) : JsError :=
  TypeError ("Cannot read properties of " +:+ base +:+
             " (reading '" +:+ name +:+ "')").

(** The expression [e.stack]: the value read, or the value thrown.  Reading
    a property of [undefined] or [null] throws a [TypeError]; an [Error]
    object has its stack; the other values of the model have no property of
    that name, and the read gives [undefined]. *)
Definition get_stack (e : JsValue) : JsValue + JsValue :=
  match e with
  | VUndefined => inr (VError (cannot_read "stack" "undefined"))
  | VNull => inr (VError (cannot_read "stack" "null"))
  | VError err => inl (VString (err_stack err))
  | VNumber _ | VString _ | VResponse _ => inl VUndefined
  end.

(** ** Promises

    A promise is either the anonymous, already fulfilled promise that
    [Promise.resolve(v)] makes from a plain value, or a promise object named
    by its identity.  What happens to named promises is recorded in a
    [History]: the settlements so far, oldest first.  A promise settles once;
    a later entry for the same identity has no effect. *)

Inductive Promise :=
| Resolved (v : JsValue)
| Ref (p : nat).

#[global] Instance Promise_eq_dec : EqDecision Promise.
Proof. solve_decision. Defined.

(** [MaybePromise<T>]: a plain value or a promise. *)
Inductive MaybePromise :=
| Plain (v : JsValue)
| Thenable (p : Promise).

Definition Promise_resolve (x : MaybePromise) : Promise :=
  match x with
  | Plain v => Resolved v
  | Thenable p => p
  end.

Inductive Settlement :=
| Fulfils (v : JsValue)
| Rejects (e : JsValue).

Definition History := list (nat * Settlement).

Inductive PromiseState :=
| Pending
| Fulfilled (v : JsValue)
| Rejected (e : JsValue).

Fixpoint settlement_of (h : History) (p : nat) : option Settlement :=
  match h with
  | [] => None
  | (q, s) :: h' => if decide (q = p) then Some s else settlement_of h' p
  end.

Definition promise_state (h : History) (pr : Promise) : PromiseState :=
  match pr with
  | Resolved v => Fulfilled v
  | Ref p =>
      match settlement_of h p with
      | None => Pending
      | Some (Fulfils v) => Fulfilled v
      | Some (Rejects e) => Rejected e
      end
  end.

(** The environment settles promise [p]; nothing happens when [p] has
    settled before. *)
Definition settle (p : nat) (s : Settlement) (h : History) : History :=
  match settlement_of h p with
  | Some _ => h
  | None => h ++ [(p, s)]
  end.

(** *** [Promise.all]

    [Promise.all(array)] reads the array when it is called and subscribes to
    every element.  Reactions of elements that had settled by then run in
    array order; the others react when they settle.  The first reaction that
    is a rejection rejects the aggregate; it is fulfilled, with the values in
    array order, when every element has been fulfilled. *)
Record Aggregate := mkAggregate {
  members : list Promise;
  subscribed : History
}.

Definition Promise_all (array : list Promise) (h : History) : Aggregate :=
  mkAggregate array h.

Inductive AggregateState :=
| AllPending
| AllFulfilled (values : list JsValue)
| AllRejected (e : JsValue).

Fixpoint first_rejected (h : History) (ps : list Promise) : option JsValue :=
  match ps with
  | [] => None
  | pr :: ps' =>
      match promise_state h pr with
      | Rejected e => Some e
      | _ => first_rejected h ps'
      end
  end.

Fixpoint next_rejection (ps : list Promise) (seen later : History)
  : option JsValue :=
  match later with
  | [] => None
  | (p, s) :: later' =>
      match s, settlement_of seen p with
      | Rejects e, None =>
          if decide (Ref p ∈ ps) then Some e
          else next_rejection ps (seen ++ [(p, s)]) later'
      | _, _ => next_rejection ps (seen ++ [(p, s)]) later'
      end
  end.

Fixpoint all_values (h : History) (ps : list Promise) : option (list JsValue) :=
  match ps with
  | [] => Some []
  | pr :: ps' =>
      match promise_state h pr with
      | Fulfilled v => (v ::.) <$> all_values h ps'
      | _ => None
      end
  end.

(** State of the aggregate once the settlements [later] have followed its
    creation. *)
Definition aggregate_state (a : Aggregate) (later : History) : AggregateState :=
  match first_rejected (subscribed a) (members a) with
  | Some e => AllRejected e
  | None =>
      match next_rejection (members a) (subscribed a) later with
      | Some e => AllRejected e
      | None =>
          match all_values (subscribed a ++ later) (members a) with
          | Some vs => AllFulfilled vs
          | None => AllPending
          end
      end
  end.

(** State of the aggregate when the whole history is [h], an extension of
    the history it was created in. *)
Definition aggregate_state_at (a : Aggregate) (h : History) : AggregateState :=
  aggregate_state a (drop (length (subscribed a)) h).

(** ** Events *)

(** Modelled from the spec: the [Request] class of [./http], whose code is
    not in this file.  A request is a value with a method, a URL and
    headers (the body plays no part in the dispatch).  Header names are kept
    in lower case, as [Headers] stores them. *)
Record Request := mkRequest {
  req_method : string;
  req_url : string;
  req_headers : list (string * string)
}.

(** Modelled from the spec: [request.headers.delete(name)] on a [Request]
    of [./http], whose code is not in this file.  The forwarder's input
    request "has its own-host header removed" and is otherwise the original
    request: every entry of the given name goes, the entries of other names
    stay, in their order, and method and URL are not touched. *)
Definition headers_delete (name : string) (request : Request) : Request :=
  mkRequest (req_method request) (req_url request)
            (filter (λ kv, kv.1 ≠ name) (req_headers request)).

(** Modelled from the spec: [request.clone()] of the same class, a copy
    with the same contents. *)
Definition clone (request : Request) : Request := request.

(** [FetchEvent]: the fields behind the module-private symbols, and the
    stop-immediate-propagation flag of the [Event] base class. *)
Record FetchEvent := mkFetchEvent {
  request : Request;
  kResponse : option Promise;
  kPassThrough : bool;
  kWaitUntil : list Promise;
  kSent : bool;
  stopped : bool
}.

(** [new FetchEvent(request)] *)
Definition new_FetchEvent (request : Request) : FetchEvent :=
  mkFetchEvent request None false [] false false.

Record ScheduledEvent := mkScheduledEvent {
  scheduledTime : Z;
  cron : string;
  sWaitUntil : list Promise;
  sStopped : bool
}.

(** [new ScheduledEvent(scheduledTime, cron)] *)
Definition new_ScheduledEvent (scheduledTime : Z) (cron : string)
  : ScheduledEvent :=
  mkScheduledEvent scheduledTime cron [] false.

(** A call on a mutable object returns the object as the call left it and,
    when the call threw, the thrown value. *)
Definition Completion (A : Type) : Type := A * option JsValue.

Definition set_kResponse (p : Promise) (ev : FetchEvent) : FetchEvent :=
  mkFetchEvent (request ev) (Some p) (kPassThrough ev) (kWaitUntil ev)
               (kSent ev) (stopped ev).

Definition set_kSent (ev : FetchEvent) : FetchEvent :=
  mkFetchEvent (request ev) (kResponse ev) (kPassThrough ev) (kWaitUntil ev)
               true (stopped ev).

Module FetchEventMethods.

Definition stopImmediatePropagation (ev : FetchEvent) : FetchEvent :=
  mkFetchEvent (request ev) (kResponse ev) (kPassThrough ev) (kWaitUntil ev)
               (kSent ev) true.

Definition respondWith (response : MaybePromise) (ev : FetchEvent)
  : Completion FetchEvent :=
  if bool_decide (is_Some (kResponse ev)) then
    (ev, Some (VError (DOMException
      "FetchEvent.respondWith() has already been called; it can only be called once."
      "InvalidStateError")))
  else if kSent ev then
    (ev, Some (VError (DOMException
      "Too late to call FetchEvent.respondWith(). It must be called synchronously in the event handler."
      "InvalidStateError")))
  else
    (set_kResponse (Promise_resolve response) (stopImmediatePropagation ev),
     None).

Definition passThroughOnException (ev : FetchEvent) : Completion FetchEvent :=
  (mkFetchEvent (request ev) (kResponse ev) true (kWaitUntil ev)
                (kSent ev) (stopped ev), None).

Definition waitUntil (promise : Promise) (ev : FetchEvent)
  : Completion FetchEvent :=
  (mkFetchEvent (request ev) (kResponse ev) (kPassThrough ev)
                (kWaitUntil ev ++ [promise]) (kSent ev) (stopped ev), None).

End FetchEventMethods.

Module ScheduledEventMethods.

Definition stopImmediatePropagation (ev : ScheduledEvent) : ScheduledEvent :=
  mkScheduledEvent (scheduledTime ev) (cron ev) (sWaitUntil ev) true.

Definition waitUntil (promise : Promise) (ev : ScheduledEvent)
  : Completion ScheduledEvent :=
  (mkScheduledEvent (scheduledTime ev) (cron ev)
                    (sWaitUntil ev ++ [promise]) (sStopped ev), None).

End ScheduledEventMethods.

(** [ValueOf<WorkerGlobalScopeEventMap>] *)
Inductive WorkerEvent :=
| EFetch (ev : FetchEvent)
| EScheduled (ev : ScheduledEvent).

Inductive EventType := fetch_type | scheduled_type.

#[global] Instance EventType_eq_dec : EqDecision EventType.
Proof. solve_decision. Defined.

Definition event_type (ev : WorkerEvent) : EventType :=
  match ev with
  | EFetch _ => fetch_type
  | EScheduled _ => scheduled_type
  end.

Definition stop_flag (ev : WorkerEvent) : bool :=
  match ev with
  | EFetch e => stopped e
  | EScheduled e => sStopped e
  end.

Definition stopImmediatePropagation (ev : WorkerEvent) : WorkerEvent :=
  match ev with
  | EFetch e => EFetch (FetchEventMethods.stopImmediatePropagation e)
  | EScheduled e => EScheduled (ScheduledEventMethods.stopImmediatePropagation e)
  end.

(** What listener code can read from the event it is given. *)
Inductive Payload :=
| FetchPayload (request : Request)
| ScheduledPayload (scheduledTime : Z) (cron : string).

Definition payload_of (ev : WorkerEvent) : Payload :=
  match ev with
  | EFetch e => FetchPayload (request e)
  | EScheduled e => ScheduledPayload (scheduledTime e) (cron e)
  end.

(** ** Listener code

    The fields of an event sit behind symbols the module does not export, so
    the code of a listener acts on the event through its methods only.  Its
    behaviour is a tree of method calls: each call either returns, and the
    code goes on with [k], or throws, and the code goes on with its handler
    for the thrown value ([Throw] itself when the call is not in a [try]).
    [Throw e] is [throw e] for any value [e], [undefined] and [null]
    included. *)
Inductive Method :=
| MRespondWith (response : MaybePromise)
| MPassThroughOnException
| MWaitUntil (promise : Promise)
| MStopImmediatePropagation.

Inductive Prog (R : Type) :=
| Ret (r : R)
| Throw (e : JsValue)
| Call (m : Method) (k : Prog R) (catch : JsValue → Prog R).

Arguments Ret {R} r.
Arguments Throw {R} e.
Arguments Call {R} m k catch.

Notation "m ~> k" := (Call m k Throw)
  (at level 65, right associativity, only parsing).

Definition lift_fetch (c : Completion FetchEvent) : Completion WorkerEvent :=
  (EFetch c.1, c.2).

Definition lift_scheduled (c : Completion ScheduledEvent)
  : Completion WorkerEvent :=
  (EScheduled c.1, c.2).

(** A method the event does not have is [undefined]; calling it throws. *)
Definition not_a_function (name : string) : JsError :=
  TypeError (name +:+ " is not a function").

Definition call_method (m : Method) (ev : WorkerEvent) : Completion WorkerEvent :=
  match m, ev with
  | MRespondWith r, EFetch e => lift_fetch (FetchEventMethods.respondWith r e)
  | MPassThroughOnException, EFetch e =>
      lift_fetch (FetchEventMethods.passThroughOnException e)
  | MWaitUntil p, EFetch e => lift_fetch (FetchEventMethods.waitUntil p e)
  | MWaitUntil p, EScheduled e =>
      lift_scheduled (ScheduledEventMethods.waitUntil p e)
  | MStopImmediatePropagation, _ => (stopImmediatePropagation ev, None)
  | MRespondWith _, EScheduled _ =>
      (ev, Some (VError (not_a_function "event.respondWith")))
  | MPassThroughOnException, EScheduled _ =>
      (ev, Some (VError (not_a_function "event.passThroughOnException")))
  end.

(** Running listener code on an event: the event as the code left it, and
    the value it returned or the value it threw. *)
Fixpoint run {R : Type} (p : Prog R) (ev : WorkerEvent) : WorkerEvent * (R + JsValue) :=
  match p with
  | Ret r => (ev, inl r)
  | Throw e => (ev, inr e)
  | Call m k catch =>
      match call_method m ev with
      | (ev', None) => run k ev'
      | (ev', Some e) => run (catch e) ev'
      end
  end.

(** [p] followed by what [f] makes of its result. *)
Fixpoint bind {A B : Type} (p : Prog A) (f : A → Prog B) : Prog B :=
  match p with
  | Ret r => f r
  | Throw e => Throw e
  | Call m k catch => Call m (bind k f) (λ e, bind (catch e) f)
  end.

(** ** Listeners and the scope *)

(** The identity of a function object: one the program made, or a closure
    the scope made itself. *)
Inductive ObjRef :=
| UserObject (n : nat)
| ScopeClosure (n : nat).

#[global] Instance ObjRef_eq_dec : EqDecision ObjRef.
Proof. solve_decision. Defined.

#[global] Instance ObjRef_countable : Countable ObjRef.
Proof.
  refine (inj_countable'
            (λ r, match r with UserObject n => inl n | ScopeClosure n => inr n end)
            (λ s, match s with inl n => UserObject n | inr n => ScopeClosure n end)
            _).
  intros []; reflexivity.
Defined.

(** [TypedEventListener]: a function, or an object with [handleEvent]. *)
Inductive ListenerBody :=
| FunctionBody (f : Payload → Prog unit)
| HandleEventBody (handleEvent : Payload → Prog unit).

Record Listener := mkListener {
  l_ref : ObjRef;
  l_body : ListenerBody
}.

(** The closure [#wrap] builds around a listener.  [shim_ref] is its own
    identity; the closure holds on to the listener it was built for. *)
Record Shim := mkShim {
  shim_ref : nat;
  wrapped : Listener
}.

(** [ServiceWorkerGlobalScope].  [log] collects what [#log.warn] was called
    with.  [wrappedError] is the slot [#wrappedError]: it holds whatever
    value was assigned to it last, and [undefined] when it is empty.
    [fetchListeners] and [scheduledListeners] are the listener lists of the
    [EventTarget] base class.  [nextRef] names the next closure the scope
    creates. *)
Record Scope := mkScope {
  log : list JsValue;
  modules : bool;
  wrappedListeners : gmap ObjRef Shim;
  wrappedError : JsValue;
  fetchListeners : list Shim;
  scheduledListeners : list Shim;
  nextRef : nat
}.

(** [new ServiceWorkerGlobalScope(log, globals, bindings, modules)] *)
Definition new_Scope (modules : bool) : Scope :=
  mkScope [] modules ∅ VUndefined [] [] 0.

Definition set_wrappedError (e : JsValue) (sc : Scope) : Scope :=
  mkScope (log sc) (modules sc) (wrappedListeners sc) e
          (fetchListeners sc) (scheduledListeners sc) (nextRef sc).

(** Modelled from the spec: the logger, [Log] of the shared package, whose
    code is not in this file.  [warn(message)] records what it is given. *)
Definition warn (message : JsValue) (sc : Scope) : Scope :=
  mkScope (log sc ++ [message]) (modules sc) (wrappedListeners sc)
          (wrappedError sc) (fetchListeners sc) (scheduledListeners sc)
          (nextRef sc).

Definition listeners_of (type : EventType) (sc : Scope) : list Shim :=
  match type with
  | fetch_type => fetchListeners sc
  | scheduled_type => scheduledListeners sc
  end.

Definition set_listeners (type : EventType) (ls : list Shim) (sc : Scope)
  : Scope :=
  match type with
  | fetch_type =>
      mkScope (log sc) (modules sc) (wrappedListeners sc) (wrappedError sc)
              ls (scheduledListeners sc) (nextRef sc)
  | scheduled_type =>
      mkScope (log sc) (modules sc) (wrappedListeners sc) (wrappedError sc)
              (fetchListeners sc) ls (nextRef sc)
  end.

(** One call of a listener, as the fan-out made it: an observation the
    theorems use, not state of the program. *)
Record Invocation := mkInvocation {
  inv_listener : ObjRef;
  inv_payload : Payload
}.

Module EventTarget.

(** Modelled from the spec: the [EventTarget] base class, which
    [typedEventTarget] of the shared package returns and whose code is not
    in this file.  Per event type it keeps an ordered list of callbacks
    without duplicates (identity decides); a [null] callback is ignored;
    [dispatchEvent] calls the callbacks in registration order until the
    event's stop-immediate-propagation flag is set.  The [options]
    argument is handed through unchanged and plays no part here. *)
Definition addEventListener (type : EventType) (callback : option Shim)
    (sc : Scope) : Scope :=
  match callback with
  | None => sc
  | Some s =>
      if decide (shim_ref s ∈ shim_ref <$> listeners_of type sc) then sc
      else set_listeners type (listeners_of type sc ++ [s]) sc
  end.

(** Modelled from the spec: removal takes the callback with the given
    identity out of the list of the type. *)
Definition removeEventListener (type : EventType) (callback : option Shim)
    (sc : Scope) : Scope :=
  match callback with
  | None => sc
  | Some s =>
      set_listeners type
        (filter (λ s', shim_ref s' ≠ shim_ref s) (listeners_of type sc)) sc
  end.

Section Dispatch.
(** What calling a registered callback does. *)
Variable call : Shim → Scope → WorkerEvent → Scope * WorkerEvent.

(** Modelled from the spec: the synchronous fan-out, in registration order,
    that ends when the stop-immediate-propagation flag is set.  [seen]
    collects the calls made. *)
Fixpoint fan_out (ls : list Shim) (sc : Scope) (event : WorkerEvent)
    (seen : list Invocation) : Scope * WorkerEvent * list Invocation :=
  match ls with
  | [] => (sc, event, seen)
  | s :: ls' =>
      if stop_flag event then (sc, event, seen)
      else
        let '(sc', event') := call s sc event in
        fan_out ls' sc' event'
          (seen ++ [mkInvocation (l_ref (wrapped s)) (payload_of event)])
  end.

(** Modelled from the spec: [dispatchEvent] fans out over the listeners of
    the event's type.  No event here is cancelable, so the result is always
    [true]. *)
Definition dispatchEvent (sc : Scope) (event : WorkerEvent)
  : Scope * WorkerEvent * list Invocation * bool :=
  (fan_out (listeners_of (event_type event) sc) sc event [], true).
End Dispatch.

End EventTarget.

(** *** [#wrap] *)

(** The [try] block of the closure: [listener.handleEvent(event)] when the
    listener is an object, [listener(event)] otherwise. *)
Definition listener_call (listener : Listener) (event : WorkerEvent)
  : WorkerEvent * (unit + JsValue) :=
  match l_body listener with
  | HandleEventBody handleEvent => run (handleEvent (payload_of event)) event
  | FunctionBody f => run (f (payload_of event)) event
  end.

(** The closure [(event) => { try { ... } catch (error) { ... } }]: the
    [catch] block stops the propagation and assigns the thrown value,
    whatever it is, to the slot. *)
Definition shim_call (s : Shim) (sc : Scope) (event : WorkerEvent)
  : Scope * WorkerEvent :=
  match listener_call (wrapped s) event with
  | (event', inl _) => (sc, event')
  | (event', inr error) =>
      (set_wrappedError error sc, stopImmediatePropagation event')
  end.

Definition wrap (listener : option Listener) (sc : Scope) : Scope * option Shim :=
  match listener with
  | None => (sc, None)
  | Some l =>
      match wrappedListeners sc !! l_ref l with
      | Some wrappedListener => (sc, Some wrappedListener)
      | None =>
          let wrappedListener := mkShim (nextRef sc) l in
          (mkScope (log sc) (modules sc)
                   (<[l_ref l := wrappedListener]> (wrappedListeners sc))
                   (wrappedError sc) (fetchListeners sc)
                   (scheduledListeners sc) (S (nextRef sc)),
           Some wrappedListener)
      end
  end.

(** *** Registration and dispatch *)

Definition modules_error (name : string) : JsError :=
  TypeError ("Global " +:+ name +:+
             "() cannot be used in modules. Instead, event handlers should be declared as exports on the root module.").

(** [#addEventListener] *)
Definition priv_addEventListener (type : EventType)
    (listener : option Listener) (sc : Scope) : Scope :=
  let '(sc', w) := wrap listener sc in
  EventTarget.addEventListener type w sc'.

Definition addEventListener (type : EventType) (listener : option Listener)
    (sc : Scope) : Completion Scope :=
  if modules sc then (sc, Some (VError (modules_error "addEventListener")))
  else (priv_addEventListener type listener sc, None).

Definition removeEventListener (type : EventType) (listener : option Listener)
    (sc : Scope) : Completion Scope :=
  if modules sc then (sc, Some (VError (modules_error "removeEventListener")))
  else
    let '(sc', w) := wrap listener sc in
    (EventTarget.removeEventListener type w sc', None).

(** The result of a dispatch: the scope and the event as the call left
    them, the listener calls it made, and what it returned or threw. *)
Record Dispatched := mkDispatched {
  d_scope : Scope;
  d_event : WorkerEvent;
  d_invoked : list Invocation;
  d_result : bool + JsValue
}.

(** [#dispatchEvent]: the slot is emptied, and what it holds after the
    fan-out is thrown when it is not [undefined]. *)
Definition priv_dispatchEvent (event : WorkerEvent) (sc : Scope) : Dispatched :=
  let sc0 := set_wrappedError VUndefined sc in
  let '(sc1, event1, invoked, result) :=
    EventTarget.dispatchEvent shim_call sc0 event in
  if decide (wrappedError sc1 ≠ VUndefined) then
    mkDispatched sc1 event1 invoked (inr (wrappedError sc1))
  else mkDispatched sc1 event1 invoked (inl result).

Definition dispatchEvent (event : WorkerEvent) (sc : Scope) : Dispatched :=
  if modules sc then
    mkDispatched sc event [] (inr (VError (modules_error "dispatchEvent")))
  else priv_dispatchEvent event sc.

(** *** Exported handlers

    A module handler gets the request (or the controller) and a context
    object whose methods are those of the event, and returns a value. *)
Definition ModuleListener := Payload → Prog MaybePromise.

Definition new_closure (body : Payload → Prog unit) (sc : Scope)
  : Scope * Listener :=
  (mkScope (log sc) (modules sc) (wrappedListeners sc) (wrappedError sc)
           (fetchListeners sc) (scheduledListeners sc) (S (nextRef sc)),
   mkListener (ScopeClosure (nextRef sc)) (FunctionBody body)).

Definition kAddModuleFetchListener (listener : ModuleListener) (sc : Scope)
  : Scope :=
  let '(sc', closure) :=
    new_closure (λ e, bind (listener e)
                        (λ res, MRespondWith res ~> Ret tt)) sc in
  priv_addEventListener fetch_type (Some closure) sc'.

Definition kAddModuleScheduledListener (listener : ModuleListener) (sc : Scope)
  : Scope :=
  let '(sc', closure) :=
    new_closure (λ e, bind (listener e)
                        (λ res, MWaitUntil (Promise_resolve res) ~> Ret tt)) sc in
  priv_addEventListener scheduled_type (Some closure) sc'.

(** ** The fetch dispatcher *)

(** What the promise returned by [kDispatchFetch] settles with: a response
    that carries the aggregate of the background tasks, or an error. *)
Inductive Outcome :=
| Resolves (response : JsValue) (waitUntil : Aggregate)
| RejectsWith (e : JsValue).

(** Modelled from the spec: [withWaitUntil] of [./http], whose code is not
    in this file.  The result object carries the primary response plus the
    future of all background tasks of the dispatch. *)
Definition withWaitUntil (response : JsValue) (waitUntil : Aggregate) : Outcome :=
  Resolves response waitUntil.

(** Where the [async] function stands: suspended at
    [await event[kResponse]] with the value that expression had, suspended
    at [await fetch(request)], or finished. *)
Inductive Cont :=
| AwaitResponse (awaited : option Promise)
| AwaitFetch (upstream : nat) (waitUntil : Aggregate)
| Settled (o : Outcome).

(** One call of [kDispatchFetch] in its surroundings.  [w_invoked] and
    [w_forwarded] are observations: the listener calls of the fan-out, and
    the requests handed to [fetch]. *)
Record World := mkWorld {
  w_scope : Scope;
  w_event : FetchEvent;
  w_history : History;
  w_invoked : list Invocation;
  w_forwarded : list Request;
  w_cont : Cont
}.

Definition as_fetch (ev : WorkerEvent) (default : FetchEvent) : FetchEvent :=
  match ev with
  | EFetch e => e
  | EScheduled _ => default
  end.

Definition unhandled_error : JsError :=
  TypeError "No fetch handler responded and no upstream to proxy to specified.
Have you added a fetch event listener that responds with a Response?".

(** What asynchronous code of the program and the outside world do while
    the dispatcher is suspended or after it has finished: a promise settles,
    the job that continues the [async] function runs, or code of the program
    that still holds the event calls its methods. *)
Inductive EnvEvent :=
| Settle (p : nat) (s : Settlement)
| Resume
| Late (code : Prog unit).

Section FetchDispatch.

(** The forwarder: [fetch] of undici, by the identity of the promise it
    returns for a request. *)
Variable fetch : Request → nat.

(** The arguments of the call. *)
Variable request : Request.
Variable proxy : bool.

(** The [finally] block. *)
Definition finally (w : World) : World :=
  mkWorld (w_scope w) (set_kSent (w_event w)) (w_history w) (w_invoked w)
          (w_forwarded w) (w_cont w).

Definition finish (o : Outcome) (w : World) : World :=
  mkWorld (w_scope w) (w_event w) (w_history w) (w_invoked w)
          (w_forwarded w) (Settled o).

(** The statements after the [try] statement, up to [await fetch(request)]. *)
Definition after_try (w : World) : World :=
  if negb proxy then finish (RejectsWith unhandled_error) w
  else
    let request' := headers_delete "host" request in
    let waitUntil := Promise_all (kWaitUntil (w_event w)) (w_history w) in
    mkWorld (w_scope w) (w_event w) (w_history w) (w_invoked w)
            (w_forwarded w ++ [request'])
            (AwaitFetch (fetch request') waitUntil).

(** The [catch] block, with the [finally] block that follows it.  [e] is
    whatever was thrown or whatever the response promise was rejected
    with.  With the pass-through flag set the block reads [e.stack]; when
    that read throws, the function leaves through the [finally] block and
    rejects with the error of the read. *)
Definition catch_block (e : JsValue) (w : World) : World :=
  if kPassThrough (w_event w) then
    match get_stack e with
    | inl stack =>
        after_try
          (finally (mkWorld (warn stack (w_scope w)) (w_event w)
                            (w_history w) (w_invoked w) (w_forwarded w)
                            (w_cont w)))
    | inr error => finish (RejectsWith error) (finally w)
    end
  else finish (RejectsWith e) (finally w).

(** From the call to the first [await], or to the end when a listener
    threw. *)
Definition kDispatchFetch_start (sc : Scope) (h : History) : World :=
  let event := new_FetchEvent (if proxy then clone request else request) in
  let d := priv_dispatchEvent (EFetch event) sc in
  let event' := as_fetch (d_event d) event in
  let w := mkWorld (d_scope d) event' h (d_invoked d) []
                   (AwaitResponse (kResponse event')) in
  match d_result d with
  | inr e => catch_block e w
  | inl _ => w
  end.

(** The job that continues the function after an [await].  It does nothing
    while the awaited promise is pending. *)
Definition kDispatchFetch_resume (w : World) : World :=
  match w_cont w with
  | AwaitResponse None => after_try (finally w)
  | AwaitResponse (Some pr) =>
      match promise_state (w_history w) pr with
      | Pending => w
      | Fulfilled response =>
          if decide (response = VUndefined) then after_try (finally w)
          else
            let waitUntil :=
              Promise_all (kWaitUntil (w_event w)) (w_history w) in
            finish (withWaitUntil response waitUntil) (finally w)
      | Rejected e => catch_block e w
      end
  | AwaitFetch upstream waitUntil =>
      match promise_state (w_history w) (Ref upstream) with
      | Pending => w
      | Fulfilled response => finish (withWaitUntil response waitUntil) w
      | Rejected e => finish (RejectsWith e) w
      end
  | Settled _ => w
  end.

Definition step (w : World) (ev : EnvEvent) : World :=
  match ev with
  | Settle p s =>
      mkWorld (w_scope w) (w_event w) (settle p s (w_history w))
              (w_invoked w) (w_forwarded w) (w_cont w)
  | Resume => kDispatchFetch_resume w
  | Late code =>
      mkWorld (w_scope w)
              (as_fetch (run code (EFetch (w_event w))).1 (w_event w))
              (w_history w) (w_invoked w) (w_forwarded w) (w_cont w)
  end.

Definition run_env (evs : list EnvEvent) (w : World) : World :=
  foldl step w evs.

(** The whole call: the synchronous part, then whatever the surroundings
    do. *)
Definition kDispatchFetch (sc : Scope) (h : History) (evs : list EnvEvent)
  : World :=
  run_env evs (kDispatchFetch_start sc h).

End FetchDispatch.

(** State of the background future of an outcome in world [w]. *)
Definition background_state (w : World) : option AggregateState :=
  match w_cont w with
  | Settled (Resolves _ waitUntil) =>
      Some (aggregate_state_at waitUntil (w_history w))
  | _ => None
  end.

(** ** The scheduled dispatcher *)

Inductive ScheduledOutcome :=
| StillPending
| ResolvesTo (results : list JsValue)
| ScheduledRejects (e : JsValue).

(** [kDispatchScheduled] up to its [await]: the scope and the event after
    the fan-out, the listener calls made, and either the error the fan-out
    threw or the aggregate the function awaits. *)
Record ScheduledRun := mkScheduledRun {
  sr_scope : Scope;
  sr_event : ScheduledEvent;
  sr_invoked : list Invocation;
  sr_awaits : JsValue + Aggregate
}.

Definition as_scheduled (ev : WorkerEvent) (default : ScheduledEvent)
  : ScheduledEvent :=
  match ev with
  | EScheduled e => e
  | EFetch _ => default
  end.

(** [now] is what [Date.now()] returns at the call. *)
Definition kDispatchScheduled (now : Z) (scheduledTime : option Z)
    (cron : option string) (sc : Scope) (h : History) : ScheduledRun :=
  let event :=
    new_ScheduledEvent (default now scheduledTime) (default "" cron) in
  let d := priv_dispatchEvent (EScheduled event) sc in
  let event' := as_scheduled (d_event d) event in
  match d_result d with
  | inr e => mkScheduledRun (d_scope d) event' (d_invoked d) (inl e)
  | inl _ =>
      mkScheduledRun (d_scope d) event' (d_invoked d)
                     (inr (Promise_all (sWaitUntil event') h))
  end.

(** What the promise returned by [kDispatchScheduled] has settled with when
    the history has grown to [h]. *)
Definition scheduled_outcome (r : ScheduledRun) (h : History)
  : ScheduledOutcome :=
  match sr_awaits r with
  | inl e => ScheduledRejects e
  | inr waitUntil =>
      match aggregate_state_at waitUntil h with
      | AllPending => StillPending
      | AllFulfilled vs => ResolvesTo vs
      | AllRejected e => ScheduledRejects e
      end
  end.

(** ** Predicates used in the statements *)

(** A property of fetch events, read on any event. *)
Definition on_fetch (Q : FetchEvent → Prop) (ev : WorkerEvent) : Prop :=
  match ev with
  | EFetch e => Q e
  | EScheduled _ => False
  end.

(** A property every method of [FetchEvent] keeps. *)
Definition fetch_stable (Q : FetchEvent → Prop) : Prop :=
  (∀ e, Q e → Q (FetchEventMethods.stopImmediatePropagation e)) ∧
  (∀ r e, Q e → Q (FetchEventMethods.respondWith r e).1) ∧
  (∀ e, Q e → Q (FetchEventMethods.passThroughOnException e).1) ∧
  (∀ p e, Q e → Q (FetchEventMethods.waitUntil p e).1).

(** Request [fwd] is [request] without its headers of the name [name]:
    method and URL are the same, no header of that name is left, and the
    headers of other names are all there, in their order. *)
Definition without_header (name : string) (request fwd : Request) : Prop :=
  req_method fwd = req_method request
  ∧ req_url fwd = req_url request
  ∧ (∀ value, (name, value) ∉ req_headers fwd)
  ∧ filter (λ kv, kv.1 ≠ name) (req_headers fwd)
    = filter (λ kv, kv.1 ≠ name) (req_headers request).

(** Once the function is past its [try] statement the window is closed. *)
Definition window_closed_after_try (w : World) : Prop :=
  match w_cont w with
  | AwaitResponse _ => True
  | AwaitFetch _ _ | Settled _ => kSent (w_event w) = true
  end.

(** Two worlds that differ in the event only, after the dispatcher has
    finished. *)
Definition same_outcome (w1 w2 : World) : Prop :=
  w_history w1 = w_history w2 ∧ w_cont w1 = w_cont w2
  ∧ ∃ o, w_cont w1 = Settled o.

Definition settled_state (s : Settlement) : PromiseState :=
  match s with
  | Fulfils v => Fulfilled v
  | Rejects e => Rejected e
  end.

(** The tasks [tasks] are part of every aggregate the dispatcher has built,
    and the history has only grown since it built one. *)
Definition tasks_reflected (tasks : list Promise) (w : World) : Prop :=
  tasks `prefix_of` kWaitUntil (w_event w)
  ∧ match w_cont w with
    | AwaitFetch _ a | Settled (Resolves _ a) =>
        tasks `prefix_of` members a
        ∧ subscribed a `prefix_of` w_history w
    | _ => True
    end.

(** The reading of C2 that the code does not meet: the background future of
    [w] has settled only if every queued task has. *)
Definition settles_only_after_all_tasks (w : World) : Prop :=
  ∀ st, background_state w = Some st → st ≠ AllPending →
        ∀ pr, pr ∈ kWaitUntil (w_event w) →
              promise_state (w_history w) pr ≠ Pending.

(** The fan-out of a fetch event [ev0] over the fetch listeners
    [pre ++ s :: post] of [sc] gets as far as [s]: the listeners in [pre]
    have run and left the scope [sc1], the event [ev1] and the calls
    [seen1], and propagation has not been stopped. *)
Definition reaches_listener (sc : Scope) (ev0 : FetchEvent)
    (pre : list Shim) (s : Shim) (post : list Shim)
    (sc1 : Scope) (ev1 : FetchEvent) (seen1 : list Invocation) : Prop :=
  fetchListeners sc = pre ++ s :: post
  ∧ EventTarget.fan_out shim_call pre (set_wrappedError VUndefined sc) (EFetch ev0) []
    = (sc1, EFetch ev1, seen1)
  ∧ stopped ev1 = false.

(** The call of the listener of [s] with event [ev], as the fan-out records
    it. *)
Definition invocation_of (s : Shim) (ev : FetchEvent) : Invocation :=
  mkInvocation (l_ref (wrapped s)) (FetchPayload (request ev)).

(** The dispatcher has handed the request to the forwarder and got promise
    [up]; [a] is the background future built then.  It is still waiting, or
    it has settled the way [up] did. *)
Definition forwarded_outcome (up : nat) (a : Aggregate) (w : World) : Prop :=
  match w_cont w with
  | AwaitFetch up' a' => up' = up ∧ a' = a
  | Settled (Resolves r a') =>
      a' = a ∧ promise_state (w_history w) (Ref up) = Fulfilled r
  | Settled (RejectsWith e) => promise_state (w_history w) (Ref up) = Rejected e
  | AwaitResponse _ => False
  end.

(** The dispatcher awaits the response promise [pr], or has gone on after
    [pr] settled; in the latter case, if [pr] was fulfilled with a value
    other than [undefined], the dispatch has resolved to that value. *)
Definition responds_with (pr : Promise) (w : World) : Prop :=
  w_cont w = AwaitResponse (Some pr)
  ∨ (promise_state (w_history w) pr ≠ Pending
     ∧ ∀ v, promise_state (w_history w) pr = Fulfilled v → v ≠ VUndefined →
            ∃ a, w_cont w = Settled (Resolves v a)).

(** ** Sample data *)

Module Samples.

Definition req : Request :=
  mkRequest "GET" "http://localhost/index.html"
            [("host", "localhost"); ("accept", "text/html")].

Definition responseA : JsValue := VResponse (mkResponse 200 "A").
Definition responseB : JsValue := VResponse (mkResponse 200 "B").
Definition upstreamResponse : JsValue := VResponse (mkResponse 200 "upstream").

Definition boom : JsError := mkError "Error" "boom" "Error: boom".

(** The forwarder hands out promise 100 for every request. *)
Definition fetch100 : Request → nat := λ _, 100%nat.

Definition function (n : nat) (code : Prog unit) : Listener :=
  mkListener (UserObject n) (FunctionBody (λ _, code)).

(** A listener that does nothing. *)
Definition idle (n : nat) : Listener := function n (Ret tt).

(** An event a listener has responded to. *)
Definition respondedEvent : FetchEvent :=
  (FetchEventMethods.respondWith (Plain responseA) (new_FetchEvent req)).1.

(** One listener queues task 1, responds, and queues task 2. *)
Definition two_tasks : Listener :=
  function 1 (MWaitUntil (Ref 1) ~> MRespondWith (Plain responseA)
              ~> MWaitUntil (Ref 2) ~> Ret tt).

(** A scope in imperative mode with the given fetch listeners added in
    order. *)
Definition scope_with (ls : list Listener) : Scope :=
  foldl (λ sc l, (addEventListener fetch_type (Some l) sc).1)
        (new_Scope false) ls.

Definition scheduled_scope_with (ls : list Listener) : Scope :=
  foldl (λ sc l, (addEventListener scheduled_type (Some l) sc).1)
        (new_Scope false) ls.

(** Three listeners in a row; the second is [middle]. *)
Definition shim1 : Shim := mkShim 0 (idle 1).
Definition shim2 (middle : Prog unit) : Shim := mkShim 1 (function 2 middle).
Definition shim3 : Shim := mkShim 2 (idle 3).

Definition three (middle : Prog unit) : Scope :=
  scope_with [idle 1; function 2 middle; idle 3].

Definition call1 : Invocation := mkInvocation (UserObject 1) (FetchPayload req).
Definition call2 : Invocation := mkInvocation (UserObject 2) (FetchPayload req).








(** A scheduled listener that queues two tasks carrying what it read from
    the event, and one that queues promises 1 and 2. *)
Definition echo : Listener :=
  mkListener (UserObject 1)
    (FunctionBody (λ event,
       match event with
       | ScheduledPayload t c =>
           MWaitUntil (Resolved (VNumber t))
           ~> MWaitUntil (Resolved (VString c)) ~> Ret tt
       | FetchPayload _ => Ret tt
       end)).

Definition two_promises : Listener :=
  mkListener (UserObject 2)
    (HandleEventBody (λ _, MWaitUntil (Ref 1) ~> MWaitUntil (Ref 2) ~> Ret tt)).

(** A scope in module mode with one exported fetch handler. *)
Definition module_scope : Scope :=
  kAddModuleFetchListener (λ _, Ret (Plain responseA)) (new_Scope true).

(** The dispatch has resolved; then task 1 rejects while task 2 is still
    pending. *)
Definition first_task_rejected : World :=
  kDispatchFetch fetch100 req false (scope_with [two_tasks]) []
                 [Resume; Settle 1 (Rejects boom)].

(** A dispatch with one task has resolved. *)
Definition resolved_one_task : World :=
  kDispatchFetch fetch100 req false
    (scope_with [function 1 (MWaitUntil (Ref 1)
                             ~> MRespondWith (Plain responseA) ~> Ret tt)])
    [] [Resume].

End Samples.

(** ** Further predicates *)

(** An object the program can hand to the scope exists already: it is one of
    the program's own, or a closure the scope has created before. *)
Definition known_ref (sc : Scope) (r : ObjRef) : Prop :=
  match r with
  | UserObject _ => True
  | ScopeClosure n => (n < nextRef sc)%nat
  end.

Definition known_listener (sc : Scope) (listener : option Listener) : Prop :=
  match listener with
  | None => True
  | Some l => known_ref sc (l_ref l)
  end.

(** The table of shims and the listener lists fit together: the table maps
    the identity of a listener to a shim built for that listener, with an
    identity the scope has handed out; different listeners have different
    shims; every registered callback is the shim the table holds for its
    listener; no list holds a shim twice; and the table knows no closure of
    the scope that does not exist yet. *)
Definition scope_wf (sc : Scope) : Prop :=
  (∀ r w, wrappedListeners sc !! r = Some w →
          l_ref (wrapped w) = r ∧ (shim_ref w < nextRef sc)%nat)
  ∧ (∀ r1 r2 w1 w2, wrappedListeners sc !! r1 = Some w1 →
                    wrappedListeners sc !! r2 = Some w2 →
                    shim_ref w1 = shim_ref w2 → r1 = r2)
  ∧ (∀ type s, s ∈ listeners_of type sc →
               wrappedListeners sc !! l_ref (wrapped s) = Some s)
  ∧ (∀ type, NoDup (shim_ref <$> listeners_of type sc))
  ∧ (∀ n, is_Some (wrappedListeners sc !! ScopeClosure n) →
          (n < nextRef sc)%nat).

(** A dispatch that started in scope [sc] has left the listener lists, the
    table of shims, the closure counter and the mode alone, and has logged
    nothing or, once past the [await] of the response, one warning. *)
Definition scope_untouched (sc : Scope) (w : World) : Prop :=
  wrappedListeners (w_scope w) = wrappedListeners sc
  ∧ fetchListeners (w_scope w) = fetchListeners sc
  ∧ scheduledListeners (w_scope w) = scheduledListeners sc
  ∧ nextRef (w_scope w) = nextRef sc
  ∧ modules (w_scope w) = modules sc
  ∧ (log (w_scope w) = log sc
     ∨ (∃ message, log (w_scope w) = log sc ++ [message])
       ∧ ∀ awaited, w_cont w ≠ AwaitResponse awaited).

(** Two dispatches that stand at the same point with the same event,
    history and observations; their scopes may differ. *)
Definition same_but_scope (w1 w2 : World) : Prop :=
  w_event w1 = w_event w2 ∧ w_history w1 = w_history w2
  ∧ w_invoked w1 = w_invoked w2 ∧ w_forwarded w1 = w_forwarded w2
  ∧ w_cont w1 = w_cont w2.

(** Listener [l] is registered for events of type [type]. *)
Definition registered (type : EventType) (l : Listener) (sc : Scope) : Prop :=
  l_ref l ∈ (λ s, l_ref (wrapped s)) <$> listeners_of type sc.

(** The closures [kAddModuleFetchListener] and [kAddModuleScheduledListener]
    build around an exported handler. *)
Definition fetch_adapter (listener : ModuleListener) : Payload → Prog unit :=
  λ e, bind (listener e) (λ res, MRespondWith res ~> Ret tt).

Definition scheduled_adapter (listener : ModuleListener) : Payload → Prog unit :=
  λ e, bind (listener e) (λ res, MWaitUntil (Promise_resolve res) ~> Ret tt).

(** The context object an exported handler gets has two methods,
    [passThroughOnException] and [waitUntil] (the scheduled one has
    [waitUntil] only); code that acts on the event through the context
    makes no other calls. *)
Definition ctx_method (m : Method) : Prop :=
  match m with
  | MPassThroughOnException | MWaitUntil _ => True
  | MRespondWith _ | MStopImmediatePropagation => False
  end.

Fixpoint ctx_only {R : Type} (p : Prog R) : Prop :=
  match p with
  | Ret _ | Throw _ => True
  | Call m k catch => ctx_method m ∧ ctx_only k ∧ ∀ e, ctx_only (catch e)
  end.

(** The dispatcher has closed the window and taken the path for a request
    no listener answered: with [proxy] one request, the original without
    its [host] header, went to the forwarder and the dispatch waits for, or
    has settled as, the promise the forwarder returned for it; without
    [proxy] the dispatch has rejected with the unhandled-request error. *)
Definition took_unhandled_path (fetch : Request → nat) (request : Request)
    (proxy : bool) (w : World) : Prop :=
  kSent (w_event w) = true
  ∧ if proxy then
      ∃ fwd, w_forwarded w = [fwd]
             ∧ without_header "host" request fwd
             ∧ ∃ a, forwarded_outcome (fetch fwd) a w
    else
      w_forwarded w = [] ∧ w_cont w = Settled (RejectsWith unhandled_error).

(** The dispatcher found no response to await and has not resumed yet, or it
    has taken the path of an unanswered request. *)
Definition unanswered (fetch : Request → nat) (request : Request)
    (proxy : bool) (w : World) : Prop :=
  (w_cont w = AwaitResponse None ∧ w_forwarded w = [])
  ∨ took_unhandled_path fetch request proxy w.

(** The dispatcher awaits the response promise [pr] and has not resumed
    yet, or it has gone on after [pr] settled; in the latter case, if [pr]
    was fulfilled with [undefined], it has taken the path of an unanswered
    request. *)
Definition undefined_is_unanswered (fetch : Request → nat) (request : Request)
    (proxy : bool) (pr : Promise) (w : World) : Prop :=
  (w_cont w = AwaitResponse (Some pr) ∧ w_forwarded w = [])
  ∨ (promise_state (w_history w) pr ≠ Pending
     ∧ (promise_state (w_history w) pr = Fulfilled VUndefined →
        took_unhandled_path fetch request proxy w)).

(** The members of a background future the dispatcher has built are tasks
    of the event, in the order of the task list. *)
Definition members_are_tasks (w : World) : Prop :=
  match w_cont w with
  | AwaitFetch _ a | Settled (Resolves _ a) =>
      members a `prefix_of` kWaitUntil (w_event w)
  | _ => True
  end.

(** As [reaches_listener], for a scheduled event and the scheduled
    listeners. *)
Definition reaches_scheduled_listener (sc : Scope) (ev0 : ScheduledEvent)
    (pre : list Shim) (s : Shim) (post : list Shim)
    (sc1 : Scope) (ev1 : ScheduledEvent) (seen1 : list Invocation) : Prop :=
  scheduledListeners sc = pre ++ s :: post
  ∧ EventTarget.fan_out shim_call pre (set_wrappedError VUndefined sc)
      (EScheduled ev0) []
    = (sc1, EScheduled ev1, seen1)
  ∧ sStopped ev1 = false.

(** The event, and the world, after one more call of
    [passThroughOnException]. *)
Definition with_passThrough (w : World) : World :=
  mkWorld (w_scope w)
          (FetchEventMethods.passThroughOnException (w_event w)).1
          (w_history w) (w_invoked w) (w_forwarded w) (w_cont w).

(** The response promise the dispatcher awaits, if any, is not rejected. *)
Definition response_not_rejected (w : World) : Prop :=
  ∀ pr e, w_cont w = AwaitResponse (Some pr) →
          promise_state (w_history w) pr ≠ Rejected e.

(** * Properties *)

(** ** Histories and aggregates *)

Lemma settlement_of_app_l h1 h2 p s :
  settlement_of h1 p = Some s → settlement_of (h1 ++ h2) p = Some s.
Proof.
  induction h1 as [|[q s'] h1 IH]; simpl; [discriminate|].
  destruct (decide (q = p)); auto.
Qed.

Lemma settlement_of_app_r h1 h2 p :
  settlement_of h1 p = None →
  settlement_of (h1 ++ h2) p = settlement_of h2 p.
Proof.
  induction h1 as [|[q s'] h1 IH]; simpl; [done|].
  destruct (decide (q = p)); [discriminate|auto].
Qed.

Lemma settle_extends p s h : ∃ later, settle p s h = h ++ later.
Proof.
  unfold settle. destruct (settlement_of h p).
  - exists []. by rewrite app_nil_r.
  - by exists [(p, s)].
Qed.

Lemma settle_pending p s h :
  settlement_of h p = None → settlement_of (settle p s h) p = Some s.
Proof.
  intros Hp. unfold settle. rewrite Hp.
  rewrite settlement_of_app_r by done. simpl.
  by destruct (decide (p = p)).
Qed.

(** A settled promise keeps its state whatever follows. *)
Lemma promise_state_stable h later pr :
  promise_state h pr ≠ Pending →
  promise_state (h ++ later) pr = promise_state h pr.
Proof.
  destruct pr as [v|p]; simpl; [done|].
  destruct (settlement_of h p) as [s|] eqn:Hs; [|done].
  intros _. by rewrite (settlement_of_app_l _ _ _ _ Hs).
Qed.

Lemma first_rejected_Some h ps e :
  first_rejected h ps = Some e →
  ∃ pr, pr ∈ ps ∧ promise_state h pr = Rejected e.
Proof.
  induction ps as [|pr ps IH]; simpl; [discriminate|].
  destruct (promise_state h pr) eqn:Hpr.
  - intros H. destruct (IH H) as (pr' & ? & ?). exists pr'. split; [by right|done].
  - intros H. destruct (IH H) as (pr' & ? & ?). exists pr'. split; [by right|done].
  - intros [= <-]. exists pr. split; [by left|done].
Qed.

Lemma next_rejection_Some ps seen later e :
  next_rejection ps seen later = Some e →
  ∃ pr, pr ∈ ps ∧ promise_state (seen ++ later) pr = Rejected e.
Proof.
  revert seen. induction later as [|[p s] later IH]; intros seen; simpl;
    [discriminate|].
  assert (Hrec : next_rejection ps (seen ++ [(p, s)]) later = Some e →
                 ∃ pr, pr ∈ ps ∧
                       promise_state (seen ++ (p, s) :: later) pr = Rejected e).
  { intros H. destruct (IH _ H) as (pr & ? & Hst). exists pr. split; [done|].
    by rewrite <- app_assoc in Hst. }
  destruct s as [v|e']; [exact Hrec|].
  destruct (settlement_of seen p) eqn:Hseen; [exact Hrec|].
  destruct (decide (Ref p ∈ ps)); [|exact Hrec].
  intros [= <-]. exists (Ref p). split; [done|]. simpl.
  rewrite settlement_of_app_r by done. simpl.
  by destruct (decide (p = p)).
Qed.

Lemma all_values_Some h ps vs :
  all_values h ps = Some vs ↔
  Forall2 (λ pr v, promise_state h pr = Fulfilled v) ps vs.
Proof.
  revert vs. induction ps as [|pr ps IH]; intros vs; simpl.
  - split; [intros [= <-]; constructor | by inversion 1].
  - split.
    + destruct (promise_state h pr) eqn:Hpr; try discriminate.
      destruct (all_values h ps) as [vs'|] eqn:Hvs; [|discriminate].
      intros [= <-]. constructor; [done|]. by apply IH.
    + inversion 1 as [|? v ? vs' Hpr Hrest]; subst. rewrite Hpr.
      apply IH in Hrest. by rewrite Hrest.
Qed.

Lemma first_rejected_None h ps vs :
  Forall2 (λ pr v, promise_state h pr = Fulfilled v) ps vs →
  first_rejected h ps = None.
Proof.
  induction 1 as [|pr v ps vs Hpr _ IH]; simpl; [done|]. by rewrite Hpr.
Qed.

Lemma next_rejection_None ps seen later vs :
  Forall2 (λ pr v, promise_state (seen ++ later) pr = Fulfilled v) ps vs →
  next_rejection ps seen later = None.
Proof.
  intros Hall.
  destruct (next_rejection ps seen later) as [e|] eqn:Hn; [|done].
  destruct (next_rejection_Some _ _ _ _ Hn) as (pr & Hin & Hrej).
  apply list_elem_of_lookup in Hin as [i Hi].
  destruct (Forall2_lookup_l _ _ _ _ _ Hall Hi) as (v & _ & Hv). congruence.
Qed.

(** The three ways an aggregate can stand, read off the states of its
    members. *)
Lemma aggregate_state_fulfilled a later vs :
  aggregate_state a later = AllFulfilled vs →
  Forall2 (λ pr v, promise_state (subscribed a ++ later) pr = Fulfilled v)
          (members a) vs.
Proof.
  unfold aggregate_state.
  destruct (first_rejected _ _); [discriminate|].
  destruct (next_rejection _ _ _); [discriminate|].
  destruct (all_values _ _) as [vs'|] eqn:Hvs; [|discriminate].
  intros [= <-]. by apply all_values_Some.
Qed.

Lemma aggregate_state_rejected a later e :
  aggregate_state a later = AllRejected e →
  ∃ pr, pr ∈ members a ∧ promise_state (subscribed a ++ later) pr = Rejected e.
Proof.
  unfold aggregate_state.
  destruct (first_rejected _ _) as [e1|] eqn:H1.
  - intros [= <-]. destruct (first_rejected_Some _ _ _ H1) as (pr & ? & Hst).
    exists pr. split; [done|].
    rewrite promise_state_stable; [done|]. by rewrite Hst.
  - destruct (next_rejection _ _ _) as [e2|] eqn:H2.
    + intros [= <-]. by apply next_rejection_Some.
    + by destruct (all_values _ _).
Qed.

Lemma aggregate_state_all_fulfilled a later vs :
  Forall2 (λ pr v, promise_state (subscribed a ++ later) pr = Fulfilled v)
          (members a) vs →
  aggregate_state a later = AllFulfilled vs.
Proof.
  intros Hall. unfold aggregate_state.
  assert (first_rejected (subscribed a) (members a) = None) as ->.
  { destruct (first_rejected _ _) as [e|] eqn:H1; [|done].
    destruct (first_rejected_Some _ _ _ H1) as (pr & Hin & Hst).
    apply list_elem_of_lookup in Hin as [i Hi].
    destruct (Forall2_lookup_l _ _ _ _ _ Hall Hi) as (v & _ & Hv).
    rewrite promise_state_stable in Hv; [congruence|]. by rewrite Hst. }
  rewrite (next_rejection_None _ _ _ _ Hall).
  apply all_values_Some in Hall. by rewrite Hall.
Qed.

Lemma aggregate_state_at_app a later :
  aggregate_state_at a (subscribed a ++ later) = aggregate_state a later.
Proof. unfold aggregate_state_at. by rewrite drop_app_length. Qed.

(** ** Listener code preserves what the methods preserve *)

Lemma run_inv {R} (P : WorkerEvent → Prop) (p : Prog R) :
  (∀ m ev, P ev → P (call_method m ev).1) →
  ∀ ev, P ev → P (run p ev).1.
Proof.
  intros Hm. induction p as [r|e|m k IHk catch IHc]; simpl; intros ev Hev;
    [done|done|].
  specialize (Hm m ev Hev).
  destruct (call_method m ev) as [ev' [e|]]; simpl in Hm; auto.
Qed.

Lemma call_method_on_fetch Q m ev :
  fetch_stable Q → on_fetch Q ev → on_fetch Q (call_method m ev).1.
Proof.
  intros (Hs & Hr & Hp & Hw). destruct ev as [e|e]; [|done].
  intros He. destruct m as [r| |p|].
  - exact (Hr r e He).
  - exact (Hp e He).
  - exact (Hw p e He).
  - exact (Hs e He).
Qed.

Lemma run_on_fetch {R} Q (p : Prog R) e :
  fetch_stable Q → Q e → on_fetch Q (run p (EFetch e)).1.
Proof.
  intros HQ He. apply (run_inv (on_fetch Q)); [|done].
  intros m ev. by apply call_method_on_fetch.
Qed.

Lemma run_fetch_shape {R} Q (p : Prog R) e :
  fetch_stable Q → Q e →
  ∃ e', (run p (EFetch e)).1 = EFetch e' ∧ Q e'.
Proof.
  intros HQ He. pose proof (run_on_fetch Q p e HQ He) as H.
  destruct (run p (EFetch e)).1 as [e'|]; [|done]. by exists e'.
Qed.

Lemma respondWith_cases r e :
  FetchEventMethods.respondWith r e =
    (set_kResponse (Promise_resolve r)
       (FetchEventMethods.stopImmediatePropagation e), None)
  ∨ (FetchEventMethods.respondWith r e).1 = e.
Proof.
  unfold FetchEventMethods.respondWith.
  case_bool_decide; [by right|]. destruct (kSent e); [by right|by left].
Qed.

Ltac fetch_stable_tac :=
  repeat split; intros;
  try match goal with
      | |- context [FetchEventMethods.respondWith ?r ?e] =>
          let Hc := fresh "Hc" in
          destruct (respondWith_cases r e) as [Hc | Hc]; rewrite Hc in *
      end;
  simpl in *; auto.

Lemma kSent_stable b : fetch_stable (λ e, kSent e = b).
Proof. fetch_stable_tac. Qed.

Lemma responded_stopped_stable :
  fetch_stable (λ e, is_Some (kResponse e) → stopped e = true).
Proof. fetch_stable_tac. Qed.

Lemma kWaitUntil_prefix_stable l :
  fetch_stable (λ e, l `prefix_of` kWaitUntil e).
Proof.
  fetch_stable_tac.
  match goal with H : _ `prefix_of` _ |- _ =>
    destruct H as [k ->]; exists (k ++ [p]); by rewrite app_assoc end.
Qed.

Lemma kResponse_stable pr : fetch_stable (λ e, kResponse e = Some pr).
Proof.
  repeat split; intros; simpl; auto.
  unfold FetchEventMethods.respondWith.
  case_bool_decide as Hs; [done|]. destruct Hs. by eexists.
Qed.

(** ** The dispatch window *)

Lemma run_env_inv fetch request proxy (P : World → Prop) evs w :
  (∀ w ev, P w → P (step fetch request proxy w ev)) →
  P w → P (run_env fetch request proxy evs w).
Proof.
  intros Hstep. revert w. unfold run_env.
  induction evs as [|ev evs IH]; simpl; intros w Hw; [done|].
  apply IH. by apply Hstep.
Qed.

Lemma late_event_shape (Q : FetchEvent → Prop) (code : Prog unit) e :
  fetch_stable Q → Q e → Q (as_fetch (run code (EFetch e)).1 e).
Proof.
  intros HQ He. destruct (run_fetch_shape Q code e HQ He) as (e' & -> & ?).
  done.
Qed.

Lemma window_closed_start fetch request proxy sc h :
  window_closed_after_try (kDispatchFetch_start fetch request proxy sc h).
Proof.
  unfold kDispatchFetch_start, window_closed_after_try.
  destruct (d_result _); [done|].
  unfold catch_block, after_try, finally, finish; simpl.
  destruct (kPassThrough _); [destruct (get_stack _)|]; destruct proxy; done.
Qed.

Lemma window_closed_step fetch request proxy w ev :
  window_closed_after_try w →
  window_closed_after_try (step fetch request proxy w ev).
Proof.
  unfold window_closed_after_try. destruct ev as [p s| |code]; simpl.
  - done.
  - unfold kDispatchFetch_resume.
    destruct (w_cont w) as [[pr|]|up agg|o] eqn:Hc; intros Hw.
    + destruct (promise_state _ _); [by rewrite Hc| |].
      * case_decide; unfold after_try, finally, finish; simpl;
          [destruct proxy|]; done.
      * unfold catch_block, after_try, finally, finish; simpl.
        destruct (kPassThrough _); [destruct (get_stack _)|]; destruct proxy; done.
    + unfold after_try, finally, finish; simpl. destruct proxy; done.
    + destruct (promise_state _ _); [by rewrite Hc|done|done].
    + by rewrite Hc.
  - destruct (w_cont w); [done| |];
      intros Hw; by apply (late_event_shape (λ e, kSent e = true));
      [apply kSent_stable|].
Qed.

(** C1.  A call of [respondWith] on an event that already holds a response,
    or whose window-closed flag is set, throws an [InvalidStateError] and
    leaves the event as it was; a call that returns found no response stored
    and the window open, and stores its argument; no code that acts on the
    event changes a response once stored; and whenever [kDispatchFetch] has
    settled, with a response or with an error, the flag is set. *)
Theorem respondWith_once_and_window_closes :
  (∀ (r : MaybePromise) (ev : FetchEvent),
     is_Some (kResponse ev) ∨ kSent ev = true →
     ∃ e : JsError,
       FetchEventMethods.respondWith r ev = (ev, Some (VError e))
       ∧ err_name e = "InvalidStateError")
  ∧ (∀ (r : MaybePromise) (ev : FetchEvent),
       (FetchEventMethods.respondWith r ev).2 = None →
       kResponse ev = None ∧ kSent ev = false
       ∧ kResponse (FetchEventMethods.respondWith r ev).1
         = Some (Promise_resolve r))
  ∧ (∀ (code : Prog unit) (ev : FetchEvent) (pr : Promise),
       kResponse ev = Some pr →
       ∃ ev', (run code (EFetch ev)).1 = EFetch ev' ∧ kResponse ev' = Some pr)
  ∧ (∀ fetch request proxy sc h evs o,
       w_cont (kDispatchFetch fetch request proxy sc h evs) = Settled o →
       kSent (w_event (kDispatchFetch fetch request proxy sc h evs)) = true).
Proof.
  split; [|split; [|split]].
  - intros r ev Hev. unfold FetchEventMethods.respondWith.
    case_bool_decide as Hr; [by eexists|].
    destruct Hev as [Hs|Hs]; [done|]. rewrite Hs. by eexists.
  - intros r ev. unfold FetchEventMethods.respondWith.
    case_bool_decide as Hr; [done|]. destruct (kSent ev); [done|].
    intros _. split; [|done].
    destruct (kResponse ev); [|done]. destruct Hr. by eexists.
  - intros code ev pr Hpr.
    by apply (run_fetch_shape (λ e, kResponse e = Some pr));
      [apply kResponse_stable|].
  - intros fetch request proxy sc h evs o Hsettled.
    assert (window_closed_after_try
              (kDispatchFetch fetch request proxy sc h evs)) as Hinv.
    { unfold kDispatchFetch.
      apply run_env_inv; [apply window_closed_step|apply window_closed_start]. }
    unfold window_closed_after_try in Hinv. by rewrite Hsettled in Hinv.
Qed.

Lemma respondWith_once_and_window_closes_witness :
  (∃ e : JsError,
     FetchEventMethods.respondWith (Plain Samples.responseB)
       Samples.respondedEvent = (Samples.respondedEvent, Some (VError e))
     ∧ err_name e = "InvalidStateError")
  ∧ kSent (w_event (kDispatchFetch Samples.fetch100 Samples.req false
                      (Samples.scope_with
                         [Samples.function 1 (Throw Samples.boom)]) [] []))
    = true.
Proof.
  destruct respondWith_once_and_window_closes as (H1 & _ & _ & H4).
  split.
  - apply H1. left. by eexists.
  - eapply H4. vm_compute. reflexivity.
Defined.

(** ** Late background tasks *)

Lemma same_outcome_step fetch request proxy w1 w2 ev :
  same_outcome w1 w2 →
  same_outcome (step fetch request proxy w1 ev) (step fetch request proxy w2 ev).
Proof.
  intros (Hh & Hc & o & Ho). unfold same_outcome.
  destruct ev as [p s| |code]; simpl.
  - rewrite Hh. eauto.
  - unfold kDispatchFetch_resume. rewrite <- Hc, Ho. eauto.
  - eauto.
Qed.

Lemma same_outcome_run fetch request proxy evs w1 w2 :
  same_outcome w1 w2 →
  same_outcome (run_env fetch request proxy evs w1)
               (run_env fetch request proxy evs w2).
Proof.
  revert w1 w2. unfold run_env.
  induction evs as [|ev evs IH]; simpl; intros w1 w2 H; [done|].
  apply IH. by apply same_outcome_step.
Qed.

Lemma settled_stays fetch request proxy evs w o :
  w_cont w = Settled o → w_cont (run_env fetch request proxy evs w) = Settled o.
Proof.
  intros Ho. apply (run_env_inv _ _ _ (λ w, w_cont w = Settled o)); [|done].
  clear. intros w [p s| |code] Hw; simpl; [done| |done].
  unfold kDispatchFetch_resume. by rewrite Hw.
Qed.

(** C9.  [waitUntil] on a fetch event returns normally whatever the state of
    the event, also when the window is closed, and appends its argument to
    the task list.  When [kDispatchFetch] has resolved, such a call by late
    code lengthens the list of the event, but the outcome keeps the
    aggregate it was given, and the state of that background future is,
    whatever happens next, what it would have been without the call. *)
Theorem waitUntil_total_and_late_call_not_reflected :
  (∀ (p : Promise) (ev : FetchEvent),
     (FetchEventMethods.waitUntil p ev).2 = None
     ∧ kWaitUntil (FetchEventMethods.waitUntil p ev).1 = kWaitUntil ev ++ [p]
     ∧ kSent (FetchEventMethods.waitUntil p ev).1 = kSent ev)
  ∧ (∀ fetch request proxy (w : World) (p : Promise) evs response waitUntil,
       w_cont w = Settled (Resolves response waitUntil) →
       let w' := step fetch request proxy w (Late (MWaitUntil p ~> Ret tt)) in
       kWaitUntil (w_event w') = kWaitUntil (w_event w) ++ [p]
       ∧ w_cont (run_env fetch request proxy evs w')
         = Settled (Resolves response waitUntil)
       ∧ background_state (run_env fetch request proxy evs w')
         = background_state (run_env fetch request proxy evs w)).
Proof.
  split; [done|].
  intros fetch request proxy w p evs response waitUntil Hw w'.
  split; [done|]. split.
  - by apply settled_stays.
  - assert (same_outcome w' w) as Hs by (repeat split; eauto).
    destruct (same_outcome_run fetch request proxy evs _ _ Hs) as (Hh & Hc & _).
    unfold background_state. by rewrite Hh, Hc.
Qed.

Lemma waitUntil_total_and_late_call_not_reflected_witness :
  kSent (w_event Samples.resolved_one_task) = true
  ∧ kWaitUntil (w_event (step Samples.fetch100 Samples.req false
                           Samples.resolved_one_task
                           (Late (MWaitUntil (Ref 2) ~> Ret tt))))
    = [Ref 1; Ref 2]
  ∧ background_state
      (run_env Samples.fetch100 Samples.req false
         [Settle 1 (Fulfils (VNumber 1)); Settle 2 (Rejects Samples.boom)]
         (step Samples.fetch100 Samples.req false Samples.resolved_one_task
            (Late (MWaitUntil (Ref 2) ~> Ret tt))))
    = Some (AllFulfilled [VNumber 1]).
Proof.
  destruct waitUntil_total_and_late_call_not_reflected as [_ H].
  destruct (H Samples.fetch100 Samples.req false Samples.resolved_one_task
              (Ref 2)
              [Settle 1 (Fulfils (VNumber 1)); Settle 2 (Rejects Samples.boom)]
              Samples.responseA (mkAggregate [Ref 1] []))
    as (H1 & _ & H3); [by vm_compute|].
  split; [by vm_compute|]. split; [exact H1|].
  rewrite H3. by vm_compute.
Defined.

(** ** The background future *)

Lemma first_rejected_complete h ps pr e :
  pr ∈ ps → promise_state h pr = Rejected e → is_Some (first_rejected h ps).
Proof.
  induction ps as [|pr' ps IH]; simpl; [by inversion 1|].
  intros Hin Hst. apply elem_of_cons in Hin as [<-|Hin].
  - rewrite Hst. eauto.
  - destruct (promise_state h pr'); eauto.
Qed.

Lemma next_rejection_complete ps seen later p e :
  Ref p ∈ ps → settlement_of seen p = None →
  settlement_of later p = Some (Rejects e) →
  is_Some (next_rejection ps seen later).
Proof.
  revert seen. induction later as [|[q s] later IH]; intros seen Hin Hseen;
    simpl; [discriminate|].
  destruct (decide (q = p)) as [->|Hne].
  - intros [= ->]. rewrite Hseen. rewrite decide_True by done. eauto.
  - intros Hlater.
    assert (is_Some (next_rejection ps (seen ++ [(q, s)]) later)) as Hrec.
    { apply IH; [done| |done]. rewrite settlement_of_app_r by done. simpl.
      by rewrite decide_False. }
    destruct s; [done|]. destruct (settlement_of seen q); [done|].
    case_decide; eauto.
Qed.

Lemma aggregate_state_member_rejected a later pr e :
  pr ∈ members a → promise_state (subscribed a ++ later) pr = Rejected e →
  ∃ e', aggregate_state a later = AllRejected e'.
Proof.
  intros Hin Hst. unfold aggregate_state.
  destruct (first_rejected _ _) as [e1|] eqn:H1; [eauto|].
  destruct pr as [v|p]; [done|]. simpl in Hst.
  destruct (settlement_of (subscribed a) p) as [s|] eqn:Hs.
  - rewrite (settlement_of_app_l _ _ _ _ Hs) in Hst.
    destruct (first_rejected_complete (subscribed a) (members a) (Ref p) e)
      as [? Hc]; [done| |congruence].
    simpl. rewrite Hs. by destruct s.
  - rewrite settlement_of_app_r in Hst by done.
    destruct (settlement_of later p) as [[v|e']|] eqn:Hl; try done.
    destruct (next_rejection_complete (members a) (subscribed a) later p e')
      as [e2 ->]; eauto.
Qed.

Lemma tasks_reflected_start fetch request proxy sc h :
  tasks_reflected
    (kWaitUntil (w_event (kDispatchFetch_start fetch request proxy sc h)))
    (kDispatchFetch_start fetch request proxy sc h).
Proof.
  unfold kDispatchFetch_start, tasks_reflected.
  destruct (d_result _); [done|].
  unfold catch_block, after_try, finally, finish; simpl.
  destruct (kPassThrough _); [destruct (get_stack _)|]; destruct proxy; done.
Qed.

Lemma tasks_reflected_step fetch request proxy tasks w ev :
  tasks_reflected tasks w →
  tasks_reflected tasks (step fetch request proxy w ev).
Proof.
  unfold tasks_reflected. intros [Hev Hc]. destruct ev as [p s| |code]; simpl.
  - split; [done|].
    destruct (w_cont w) as [|up a|[r a|e]]; try done;
      (split; [tauto|]); destruct Hc as [_ Hc];
      destruct (settle_extends p s (w_history w)) as [later ->];
      by apply prefix_app_r.
  - unfold kDispatchFetch_resume.
    destruct (w_cont w) as [[pr|]|up a|o] eqn:Hw.
    + destruct (promise_state _ _).
      * by rewrite Hw.
      * case_decide; unfold after_try, finally, finish; simpl;
          [destruct proxy|]; done.
      * unfold catch_block, after_try, finally, finish; simpl.
        destruct (kPassThrough _); [destruct (get_stack _)|]; destruct proxy; done.
    + unfold after_try, finally, finish; simpl. destruct proxy; done.
    + destruct (promise_state _ _); [by rewrite Hw|done|done].
    + by rewrite Hw.
  - split; [|done].
    by apply (late_event_shape (λ e, tasks `prefix_of` kWaitUntil e));
      [apply kWaitUntil_prefix_stable|].
Qed.

(** C2, as the code has it.  When [kDispatchFetch] has resolved, every task
    the listeners queued during the fan-out, before or after [respondWith],
    is a member of the background future.  That future is fulfilled exactly
    when all its members are, with their values in the order of the calls;
    it is rejected as soon as one member is, with the reason of a rejected
    member, while other members may still be pending; and whatever its
    state, a member that is still pending settles when its owner settles
    it. *)
Theorem background_future_fails_fast :
  ∀ fetch request proxy sc h evs response waitUntil,
    w_cont (kDispatchFetch fetch request proxy sc h evs)
    = Settled (Resolves response waitUntil) →
    kWaitUntil (w_event (kDispatchFetch_start fetch request proxy sc h))
      `prefix_of` members waitUntil
    ∧ (∀ vs, background_state (kDispatchFetch fetch request proxy sc h evs)
               = Some (AllFulfilled vs)
             ↔ Forall2 (λ pr v,
                   promise_state
                     (w_history (kDispatchFetch fetch request proxy sc h evs))
                     pr = Fulfilled v) (members waitUntil) vs)
    ∧ (∀ e, background_state (kDispatchFetch fetch request proxy sc h evs)
              = Some (AllRejected e)
            → ∃ pr, pr ∈ members waitUntil
                    ∧ promise_state
                        (w_history (kDispatchFetch fetch request proxy sc h evs))
                        pr = Rejected e)
    ∧ (∀ pr e, pr ∈ members waitUntil →
               promise_state
                 (w_history (kDispatchFetch fetch request proxy sc h evs))
                 pr = Rejected e →
               ∃ e', background_state
                       (kDispatchFetch fetch request proxy sc h evs)
                     = Some (AllRejected e'))
    ∧ (∀ p s, promise_state
                (w_history (kDispatchFetch fetch request proxy sc h evs))
                (Ref p) = Pending →
              promise_state
                (w_history
                   (step fetch request proxy
                      (kDispatchFetch fetch request proxy sc h evs)
                      (Settle p s)))
                (Ref p) = settled_state s).
Proof.
  intros fetch request proxy sc h evs response waitUntil Hw.
  set (w := kDispatchFetch fetch request proxy sc h evs) in *.
  assert (tasks_reflected
            (kWaitUntil (w_event (kDispatchFetch_start fetch request proxy sc h)))
            w) as [_ Hinv].
  { unfold w, kDispatchFetch.
    apply run_env_inv; [intros; by apply tasks_reflected_step|].
    apply tasks_reflected_start. }
  rewrite Hw in Hinv. destruct Hinv as [Hmem [later Hh]].
  unfold background_state. rewrite Hw, Hh, aggregate_state_at_app.
  split; [done|]. split; [|split; [|split]].
  - intros vs. split.
    + intros [= Hs]. by apply aggregate_state_fulfilled.
    + intros Hall. by rewrite (aggregate_state_all_fulfilled _ _ _ Hall).
  - intros e [= Hs]. by apply aggregate_state_rejected.
  - intros pr e Hin Hst.
    destruct (aggregate_state_member_rejected _ _ _ _ Hin Hst) as [e' ->].
    eauto.
  - intros p s Hp. simpl in *.
    destruct (settlement_of _ p) as [[]|] eqn:Hs; try done.
    rewrite <- Hh in Hs. rewrite (settle_pending _ _ _ Hs). by destruct s.
Qed.

Lemma background_future_fails_fast_witness :
  background_state Samples.first_task_rejected
  = Some (AllRejected Samples.boom)
  ∧ promise_state
      (w_history (step Samples.fetch100 Samples.req false
                    Samples.first_task_rejected
                    (Settle 2 (Fulfils (VNumber 2)))))
      (Ref 2) = Fulfilled (VNumber 2).
Proof.
  destruct (background_future_fails_fast Samples.fetch100 Samples.req false
              (Samples.scope_with [Samples.two_tasks]) []
              [Resume; Settle 1 (Rejects Samples.boom)]
              Samples.responseA (mkAggregate [Ref 1; Ref 2] []))
    as (_ & _ & _ & H4 & H5); [by vm_compute|].
  split.
  - destruct (H4 (Ref 1) Samples.boom) as [e' He'];
      [by apply (bool_decide_unpack _)|by vm_compute|].
    unfold Samples.first_task_rejected. rewrite He'. revert He'.
    vm_compute. by intros [= <-].
  - apply (H5 2%nat (Fulfils (VNumber 2))). by vm_compute.
Defined.

(** C2 as stated fails: the background future has been rejected while the
    second task is still pending. *)
Lemma background_future_settles_before_all_tasks :
  ¬ settles_only_after_all_tasks Samples.first_task_rejected.
Proof.
  intros H.
  apply (H (AllRejected Samples.boom)) with (pr := Ref 2);
    [by vm_compute|done| |by vm_compute].
  vm_compute. set_solver.
Qed.

(** ** The fan-out *)

Lemma fan_out_app call l1 l2 sc ev seen :
  EventTarget.fan_out call (l1 ++ l2) sc ev seen =
  let '(sc1, ev1, seen1) := EventTarget.fan_out call l1 sc ev seen in
  EventTarget.fan_out call l2 sc1 ev1 seen1.
Proof.
  revert sc ev seen. induction l1 as [|s l1 IH]; intros sc ev seen; simpl.
  - done.
  - destruct (stop_flag ev) eqn:Hstop.
    + destruct l2; simpl; [done|]. by rewrite Hstop.
    + destruct (call s sc ev) as [sc' ev']. apply IH.
Qed.

Lemma fan_out_stopped call ls sc ev seen :
  stop_flag ev = true → EventTarget.fan_out call ls sc ev seen = (sc, ev, seen).
Proof. intros H. destruct ls; simpl; [done|]. by rewrite H. Qed.

Lemma fan_out_inv (P : Scope → WorkerEvent → Prop) ls sc ev seen :
  (∀ s sc ev, stop_flag ev = false → P sc ev →
              P (shim_call s sc ev).1 (shim_call s sc ev).2) →
  P sc ev →
  P (EventTarget.fan_out shim_call ls sc ev seen).1.1
    (EventTarget.fan_out shim_call ls sc ev seen).1.2.
Proof.
  intros Hcall. revert sc ev seen.
  induction ls as [|s ls IH]; intros sc ev seen HP; simpl; [done|].
  destruct (stop_flag ev) eqn:Hstop; [done|].
  specialize (Hcall s sc ev Hstop HP).
  destruct (shim_call s sc ev) as [sc' ev']. by apply IH.
Qed.

Lemma shim_call_event (P : WorkerEvent → Prop) s sc ev :
  (∀ m ev, P ev → P (call_method m ev).1) →
  (∀ ev, P ev → P (stopImmediatePropagation ev)) →
  P ev → P (shim_call s sc ev).2.
Proof.
  intros Hm Hs Hev. unfold shim_call, listener_call.
  destruct (l_body (wrapped s)) as [f|f];
    pose proof (run_inv P (f (payload_of ev)) Hm ev Hev) as Hrun;
    destruct (run _ ev) as [ev' [[]|e]]; simpl in *; auto.
Qed.

Lemma shim_call_scope s sc ev err0 :
  (shim_call s (set_wrappedError err0 sc) ev).1
  = set_wrappedError
      (wrappedError (shim_call s (set_wrappedError err0 sc) ev).1) sc.
Proof.
  unfold shim_call.
  by destruct (listener_call (wrapped s) ev) as [ev' [[]|e]].
Qed.

(** The fan-out touches nothing of the scope but the error slot. *)
Lemma fan_out_scope ls sc ev seen err0 :
  (EventTarget.fan_out shim_call ls (set_wrappedError err0 sc) ev seen).1.1
  = set_wrappedError
      (wrappedError
         (EventTarget.fan_out shim_call ls (set_wrappedError err0 sc) ev seen).1.1)
      sc.
Proof.
  revert ev seen err0. induction ls as [|s ls IH]; intros ev seen err0; simpl.
  - done.
  - destruct (stop_flag ev); [done|].
    pose proof (shim_call_scope s sc ev err0) as H.
    destruct (shim_call s (set_wrappedError err0 sc) ev) as [sc' ev'].
    simpl in H. rewrite H. apply IH.
Qed.

(** While propagation goes on no listener has thrown, and the slot is
    empty. *)
Lemma fan_out_no_error ls sc ev seen :
  wrappedError sc = VUndefined →
  stop_flag (EventTarget.fan_out shim_call ls sc ev seen).1.2 = false →
  wrappedError (EventTarget.fan_out shim_call ls sc ev seen).1.1 = VUndefined.
Proof.
  intros Hsc.
  pose proof (fan_out_inv (λ sc ev, stop_flag ev = false →
                                      wrappedError sc = VUndefined)
                ls sc ev seen) as H.
  apply H; [|done]. clear. intros s sc ev Hstop HP. unfold shim_call.
  destruct (listener_call (wrapped s) ev) as [ev' [[]|e]]; simpl.
  - intros _. auto.
  - by destruct ev'.
Qed.

Lemma fan_out_on_fetch Q ls sc e seen :
  fetch_stable Q → Q e →
  on_fetch Q (EventTarget.fan_out shim_call ls sc (EFetch e) seen).1.2.
Proof.
  intros HQ He.
  apply (fan_out_inv (λ _ ev, on_fetch Q ev)); [|done].
  intros s sc' ev _ Hev. apply shim_call_event; [| |done].
  - intros m ev0. by apply call_method_on_fetch.
  - intros [e0|e0]; [|done]. simpl. apply HQ.
Qed.

(** The listener the fan-out has reached throws [e]: the fan-out ends
    there, and the dispatch throws [e] unless [e] is [undefined]. *)
Lemma dispatch_when_listener_throws sc ev0 pre s post sc1 ev1 seen1 ev2 e :
  reaches_listener sc ev0 pre s post sc1 ev1 seen1 →
  listener_call (wrapped s) (EFetch ev1) = (EFetch ev2, inr e) →
  priv_dispatchEvent (EFetch ev0) sc
  = mkDispatched (set_wrappedError e sc1)
                 (EFetch (FetchEventMethods.stopImmediatePropagation ev2))
                 (seen1 ++ [invocation_of s ev1])
                 (if decide (e ≠ VUndefined) then inr e else inl true).
Proof.
  intros (Hls & Hpre & Hgo) Hcall.
  unfold priv_dispatchEvent, EventTarget.dispatchEvent. simpl.
  rewrite Hls, fan_out_app, Hpre. simpl. rewrite Hgo.
  unfold shim_call. rewrite Hcall. simpl.
  rewrite fan_out_stopped by done. simpl. by case_decide.
Qed.

Lemma dispatch_when_listener_responds sc ev0 pre s post sc1 ev1 seen1 ev2 :
  reaches_listener sc ev0 pre s post sc1 ev1 seen1 →
  kResponse ev0 = None →
  listener_call (wrapped s) (EFetch ev1) = (EFetch ev2, inl tt) →
  is_Some (kResponse ev2) →
  priv_dispatchEvent (EFetch ev0) sc
  = mkDispatched sc1 (EFetch ev2) (seen1 ++ [invocation_of s ev1]) (inl true).
Proof.
  intros (Hls & Hpre & Hgo) Hev0 Hcall Hresp.
  assert (wrappedError sc1 = VUndefined) as Herr.
  { pose proof (fan_out_no_error pre (set_wrappedError VUndefined sc) (EFetch ev0) [])
      as H. rewrite Hpre in H. by apply H. }
  assert (stopped ev2 = true) as Hstop.
  { pose proof (fan_out_on_fetch
                  (λ e, is_Some (kResponse e) → stopped e = true)
                  pre (set_wrappedError VUndefined sc) ev0 []
                  responded_stopped_stable) as H1.
    rewrite Hpre in H1. simpl in H1.
    assert (is_Some (kResponse ev1) → stopped ev1 = true) as H1'.
    { apply H1. rewrite Hev0. by intros [? ?]. }
    pose proof (shim_call_event
                  (on_fetch (λ e, is_Some (kResponse e) → stopped e = true))
                  s sc1 (EFetch ev1)) as H2.
    unfold shim_call in H2. rewrite Hcall in H2. simpl in H2. apply H2; try done.
    - intros m ev. apply call_method_on_fetch, responded_stopped_stable.
    - intros [e0|e0]; [|done]. simpl. apply responded_stopped_stable. }
  unfold priv_dispatchEvent, EventTarget.dispatchEvent. simpl.
  rewrite Hls, fan_out_app, Hpre. simpl. rewrite Hgo.
  unfold shim_call. rewrite Hcall. simpl.
  rewrite fan_out_stopped by done. rewrite Herr. by rewrite decide_False by auto.
Qed.

(** Once settled, nothing of what the dispatcher produced changes. *)
Lemma run_env_settled fetch request proxy evs w o :
  w_cont w = Settled o →
  w_cont (run_env fetch request proxy evs w) = Settled o
  ∧ w_scope (run_env fetch request proxy evs w) = w_scope w
  ∧ w_forwarded (run_env fetch request proxy evs w) = w_forwarded w
  ∧ w_invoked (run_env fetch request proxy evs w) = w_invoked w.
Proof.
  intros Ho.
  apply (run_env_inv _ _ _
           (λ w', w_cont w' = Settled o ∧ w_scope w' = w_scope w
                  ∧ w_forwarded w' = w_forwarded w
                  ∧ w_invoked w' = w_invoked w)); [|done].
  intros w' [p s| |code] (Hc & ? & ? & ?); simpl; [done| |done].
  unfold kDispatchFetch_resume. by rewrite Hc.
Qed.




(** ** Pass-through *)

#[local] Arguments promise_state : simpl never.

Lemma run_env_forwarded fetch request proxy evs w up a :
  w_cont w = AwaitFetch up a →
  forwarded_outcome up a (run_env fetch request proxy evs w)
  ∧ w_scope (run_env fetch request proxy evs w) = w_scope w
  ∧ w_forwarded (run_env fetch request proxy evs w) = w_forwarded w
  ∧ w_invoked (run_env fetch request proxy evs w) = w_invoked w.
Proof.
  intros Hw.
  apply (run_env_inv _ _ _
           (λ w', forwarded_outcome up a w' ∧ w_scope w' = w_scope w
                  ∧ w_forwarded w' = w_forwarded w
                  ∧ w_invoked w' = w_invoked w)).
  - clear. unfold forwarded_outcome.
    intros w' [p s| |code] (Hc & ? & ? & ?); simpl; [|      |done].
    + split; [|done].
      destruct (settle_extends p s (w_history w')) as [later ->].
      destruct (w_cont w') as [|up' a'|[r a'|e]]; try done.
      * destruct Hc as [-> Hr]. split; [done|].
        rewrite promise_state_stable; [done|]. by rewrite Hr.
      * rewrite promise_state_stable; [done|]. by rewrite Hc.
    + unfold kDispatchFetch_resume.
      destruct (w_cont w') as [|up' a'|o] eqn:Hw'; [done| |by rewrite Hw'].
      destruct Hc as [-> ->].
      destruct (promise_state (w_history w') (Ref up)) eqn:Hst; simpl;
        [by rewrite Hw'|done|done].
  - unfold forwarded_outcome. by rewrite Hw.
Qed.

(** What [request.headers.delete(name)] does to a request, and that nothing
    else does it. *)
Lemma headers_delete_without name request :
  without_header name request (headers_delete name request).
Proof.
  unfold without_header, headers_delete. simpl.
  split; [done|]. split; [done|]. split.
  - intros value Hin. apply list_elem_of_filter in Hin as [Hne _]. by apply Hne.
  - by apply list_filter_filter_l.
Qed.









(** ** The first response wins *)

Lemma run_env_invoked fetch request proxy evs w :
  w_invoked (run_env fetch request proxy evs w) = w_invoked w.
Proof.
  apply (run_env_inv _ _ _ (λ w', w_invoked w' = w_invoked w)); [|done].
  intros w' [p s| |code] Hw'; simpl; [done| |done].
  unfold kDispatchFetch_resume, catch_block, after_try, finish, finally.
  repeat (case_match; simpl; try done).
Qed.

Lemma responds_with_step fetch request proxy pr w ev :
  responds_with pr w → responds_with pr (step fetch request proxy w ev).
Proof.
  unfold responds_with. destruct ev as [p s| |code]; simpl.
  - intros [Hc|[Hst Hv]]; [by left|right].
    destruct (settle_extends p s (w_history w)) as [later ->].
    by rewrite promise_state_stable.
  - unfold kDispatchFetch_resume. intros [Hc|[Hst Hv]].
    + rewrite Hc. destruct (promise_state (w_history w) pr) eqn:Hst.
      * by left.
      * right. case_decide as Hu.
        -- unfold after_try, finally, finish; destruct proxy; simpl;
             rewrite Hst; (split; [done|]); intros v' [= <-]; done.
        -- simpl. rewrite Hst. split; [done|]. intros v' [= <-] _. eauto.
      * right. unfold catch_block, after_try, finally, finish.
        destruct (kPassThrough _); [destruct (get_stack _)|]; destruct proxy; simpl; rewrite Hst;
          (split; [done|]); done.
    + right.
      assert (∀ w', w_history w' = w_history w →
                (∀ v a, w_cont w = Settled (Resolves v a) →
                        w_cont w' = Settled (Resolves v a)) →
                promise_state (w_history w') pr ≠ Pending
                ∧ ∀ v, promise_state (w_history w') pr = Fulfilled v →
                       v ≠ VUndefined →
                       ∃ a, w_cont w' = Settled (Resolves v a)) as Hkeep.
      { intros w' Hh Hc'. rewrite Hh. split; [done|].
        intros v Hf Hu. destruct (Hv v Hf Hu) as [a Ha]. eauto. }
      destruct (w_cont w) as [[pr'|]|up a|o] eqn:Hc.
      * destruct (promise_state (w_history w) pr') eqn:Hst'.
        -- apply Hkeep; [done|]. by rewrite Hc.
        -- case_decide; apply Hkeep; try done;
             unfold after_try, finally, finish; try destruct proxy; done.
        -- apply Hkeep; [|done]. unfold catch_block, after_try, finally, finish.
           by destruct (kPassThrough _); [destruct (get_stack _)|]; destruct proxy.
      * apply Hkeep; [|done]. unfold after_try, finally, finish.
        by destruct proxy.
      * apply Hkeep; [|done]. unfold finish.
        by destruct (promise_state (w_history w) (Ref up)).
      * apply Hkeep; [done|]. by rewrite Hc.
  - done.
Qed.

(** C4, as the code has it.  The fan-out has reached a listener, and that
    listener has stored a response [pr] in the event when it returns or
    throws.  Then the listeners registered after it are not called in this
    dispatch.  If moreover the listener returned without throwing, then once
    [pr] is fulfilled with a value [v] other than [undefined], the dispatch
    resolves to [v]: it has done so, or it does so when it resumes. *)
Theorem responder_stops_fan_out :
  ∀ fetch request (proxy : bool) sc h pre s post sc1 ev1 seen1 ev2 completion
    pr evs,
    reaches_listener sc (new_FetchEvent (if proxy then clone request else request))
                     pre s post sc1 ev1 seen1 →
    listener_call (wrapped s) (EFetch ev1) = (EFetch ev2, completion) →
    kResponse ev2 = Some pr →
    let w := kDispatchFetch fetch request proxy sc h evs in
    w_invoked w = seen1 ++ [invocation_of s ev1]
    ∧ (completion = inl tt →
       ∀ v, promise_state (w_history w) pr = Fulfilled v → v ≠ VUndefined →
            ∃ a, w_cont w = Settled (Resolves v a)
                 ∨ (w_cont w = AwaitResponse (Some pr)
                    ∧ w_cont (step fetch request proxy w Resume)
                      = Settled (Resolves v a))).
Proof.
  intros fetch request proxy sc h pre s post sc1 ev1 seen1 ev2 completion
         pr evs Hreach Hcall Hpr w.
  set (w0 := kDispatchFetch_start fetch request proxy sc h).
  assert (w_invoked w0 = seen1 ++ [invocation_of s ev1]
          ∧ (completion = inl tt → w_cont w0 = AwaitResponse (Some pr)))
    as [H1 H2].
  { destruct completion as [[]|e].
    - pose proof (dispatch_when_listener_responds _ _ _ _ _ _ _ _ _
                    Hreach eq_refl Hcall) as Hd.
      rewrite Hpr in Hd. specialize (Hd (ex_intro _ pr eq_refl)).
      unfold w0, kDispatchFetch_start. rewrite Hd. simpl. by rewrite Hpr.
    - pose proof (dispatch_when_listener_throws _ _ _ _ _ _ _ _ _ _
                    Hreach Hcall) as Hd.
      unfold w0, kDispatchFetch_start. rewrite Hd. simpl.
      split; [|done]. case_decide; [|done].
      unfold catch_block, after_try, finish, finally.
      by destruct (kPassThrough _); [destruct (get_stack _)|]; destruct proxy. }
  unfold w, kDispatchFetch. fold w0. split.
  - by rewrite run_env_invoked.
  - intros Hret v Hv Hu.
    assert (responds_with pr (run_env fetch request proxy evs w0)) as Hinv.
    { apply run_env_inv; [intros; by apply responds_with_step|left; auto]. }
    destruct Hinv as [Hc|[_ Hs]].
    + eexists. right. split; [done|]. simpl. unfold kDispatchFetch_resume.
      rewrite Hc, Hv. by rewrite decide_False.
    + destruct (Hs v Hv Hu) as [a Ha]. eauto.
Qed.

Lemma responder_stops_fan_out_witness :
  w_invoked (kDispatchFetch Samples.fetch100 Samples.req false
               (Samples.three (MRespondWith (Plain Samples.responseA) ~> Ret tt))
               [] [Resume])
  = [Samples.call1; Samples.call2]
  ∧ ∃ a, w_cont (kDispatchFetch Samples.fetch100 Samples.req false
                   (Samples.three
                      (MRespondWith (Plain Samples.responseA) ~> Ret tt))
                   [] [Resume])
         = Settled (Resolves Samples.responseA a).
Proof.
  destruct (responder_stops_fan_out Samples.fetch100 Samples.req false
              (Samples.three (MRespondWith (Plain Samples.responseA) ~> Ret tt))
              [] [Samples.shim1]
              (Samples.shim2 (MRespondWith (Plain Samples.responseA) ~> Ret tt))
              [Samples.shim3]
              (Samples.three (MRespondWith (Plain Samples.responseA) ~> Ret tt))
              (new_FetchEvent Samples.req) [Samples.call1]
              (FetchEventMethods.respondWith (Plain Samples.responseA)
                 (new_FetchEvent Samples.req)).1
              (inl tt) (Resolved Samples.responseA) [Resume])
    as [H1 H2].
  - repeat split; by vm_compute.
  - by vm_compute.
  - reflexivity.
  - split; [exact H1|].
    destruct (H2 eq_refl Samples.responseA) as [a [Ha|[Ha _]]];
      [reflexivity|discriminate|by exists a|].
    revert Ha. by vm_compute.
Defined.

(** C4 as stated fails.  The second of three listeners responds with
    response A and then throws: its call of [respondWith] has stored A, yet
    the dispatch rejects with the thrown error.  When that listener has
    also asked for pass-through and a proxy is allowed, the dispatch does
    resolve, but to the response of the forwarder, not to A.  And when the
    second listener responds with a promise and returns, and that promise
    is fulfilled with [undefined], the dispatcher takes the supplied
    response for none: the dispatch rejects with the unhandled-request
    error. *)
Lemma responder_that_throws_is_overridden :
  kResponse
    (as_fetch
       (listener_call
          (Samples.function 2
             (MRespondWith (Plain Samples.responseA) ~> Throw Samples.boom))
          (EFetch (new_FetchEvent Samples.req))).1
       (new_FetchEvent Samples.req))
  = Some (Resolved Samples.responseA)
  ∧ w_cont (kDispatchFetch Samples.fetch100 Samples.req false
              (Samples.three
                 (MRespondWith (Plain Samples.responseA) ~> Throw Samples.boom))
              [] [Resume])
    = Settled (RejectsWith Samples.boom)
  ∧ w_cont (kDispatchFetch Samples.fetch100 Samples.req true
              (Samples.three
                 (MPassThroughOnException
                  ~> MRespondWith (Plain Samples.responseA)
                  ~> Throw Samples.boom))
              [] [Settle 100 (Fulfils Samples.upstreamResponse); Resume])
    = Settled (Resolves Samples.upstreamResponse (mkAggregate [] []))
  ∧ Samples.upstreamResponse ≠ Samples.responseA
  ∧ listener_call
      (Samples.function 2 (MRespondWith (Thenable (Ref 7)) ~> Ret tt))
      (EFetch (new_FetchEvent Samples.req))
    = (EFetch (FetchEventMethods.respondWith (Thenable (Ref 7))
                 (new_FetchEvent Samples.req)).1, inl tt)
  ∧ w_invoked (kDispatchFetch Samples.fetch100 Samples.req false
                 (Samples.three
                    (MRespondWith (Thenable (Ref 7)) ~> Ret tt))
                 [] [Settle 7 (Fulfils VUndefined); Resume])
    = [Samples.call1; Samples.call2]
  ∧ w_cont (kDispatchFetch Samples.fetch100 Samples.req false
              (Samples.three (MRespondWith (Thenable (Ref 7)) ~> Ret tt))
              [] [Settle 7 (Fulfils VUndefined); Resume])
    = Settled (RejectsWith unhandled_error).
Proof. repeat split; by vm_compute. Qed.

(** ** The scheduled dispatcher *)

Lemma call_method_payload m ev :
  payload_of (call_method m ev).1 = payload_of ev.
Proof.
  destruct ev as [e|e], m as [r| |p|]; try done.
  unfold call_method, lift_fetch. simpl.
  by destruct (respondWith_cases r e) as [-> | ->].
Qed.

Lemma shim_call_payload s sc ev pl :
  payload_of ev = pl → payload_of (shim_call s sc ev).2 = pl.
Proof.
  intros H. apply (shim_call_event (λ ev, payload_of ev = pl)); [| |done].
  - intros m ev0 <-. apply call_method_payload.
  - by intros [e|e] <-.
Qed.

Lemma fan_out_payload ls sc ev seen pl :
  payload_of ev = pl →
  Forall (λ i, inv_payload i = pl) seen →
  payload_of (EventTarget.fan_out shim_call ls sc ev seen).1.2 = pl
  ∧ Forall (λ i, inv_payload i = pl)
           (EventTarget.fan_out shim_call ls sc ev seen).2.
Proof.
  revert sc ev seen. induction ls as [|s ls IH]; intros sc ev seen Hev Hseen;
    simpl; [done|].
  destruct (stop_flag ev); [done|].
  pose proof (shim_call_payload s sc ev pl Hev) as Hcall.
  destruct (shim_call s sc ev) as [sc' ev']. apply IH; [done|].
  apply Forall_app. split; [done|]. by repeat constructor.
Qed.

Lemma fan_out_seen ls sc ev seen :
  seen `prefix_of` (EventTarget.fan_out shim_call ls sc ev seen).2.
Proof.
  revert sc ev seen. induction ls as [|s ls IH]; intros sc ev seen; simpl;
    [done|].
  destruct (stop_flag ev); [done|].
  destruct (shim_call s sc ev) as [sc' ev'].
  etrans; [|apply IH]. by apply prefix_app_r.
Qed.

Lemma kDispatchScheduled_event now st cr sc h :
  scheduledTime (sr_event (kDispatchScheduled now st cr sc h)) = default now st
  ∧ cron (sr_event (kDispatchScheduled now st cr sc h)) = default "" cr
  ∧ Forall (λ i, inv_payload i = ScheduledPayload (default now st) (default "" cr))
           (sr_invoked (kDispatchScheduled now st cr sc h))
  ∧ (∀ s rest, scheduledListeners sc = s :: rest →
       [mkInvocation (l_ref (wrapped s))
                     (ScheduledPayload (default now st) (default "" cr))]
         `prefix_of` sr_invoked (kDispatchScheduled now st cr sc h)).
Proof.
  set (event := new_ScheduledEvent (default now st) (default "" cr)).
  set (pl := ScheduledPayload (default now st) (default "" cr)).
  destruct (fan_out_payload (scheduledListeners sc) (set_wrappedError VUndefined sc)
              (EScheduled event) [] pl eq_refl (Forall_nil_2 _)) as [Hpl Hinv].
  assert (sr_event (kDispatchScheduled now st cr sc h)
          = as_scheduled
              (EventTarget.fan_out shim_call (scheduledListeners sc)
                 (set_wrappedError VUndefined sc) (EScheduled event) []).1.2 event
          ∧ sr_invoked (kDispatchScheduled now st cr sc h)
            = (EventTarget.fan_out shim_call (scheduledListeners sc)
                 (set_wrappedError VUndefined sc) (EScheduled event) []).2)
    as [-> ->].
  { unfold kDispatchScheduled, priv_dispatchEvent, EventTarget.dispatchEvent.
    fold event. simpl.
    destruct (EventTarget.fan_out _ _ _ _ _) as [[sc1 ev1] seen1]. simpl.
    by destruct (wrappedError sc1). }
  repeat split; try done.
  - destruct (EventTarget.fan_out _ _ _ _ _).1.2 as [e|e]; [done|].
    by injection Hpl.
  - destruct (EventTarget.fan_out _ _ _ _ _).1.2 as [e|e]; [done|].
    by injection Hpl.
  - intros s rest ->. simpl.
    destruct (shim_call s (set_wrappedError VUndefined sc) (EScheduled event))
      as [sc' ev']. apply fan_out_seen.
Qed.

(** C6.  Without arguments [kDispatchScheduled] builds the event with the
    clock's time and the empty cron string, and with arguments [(t, cron)]
    with exactly these; every listener call of the fan-out, the first
    registered listener's among them, is handed the event with these values.
    Each [waitUntil] call appends to the task list; when the fan-out
    leaves nothing to rethrow, the function awaits the tasks in that list,
    and once all of them are fulfilled it resolves to their values in the
    order of the list, that is, of the calls. *)
Theorem scheduled_dispatch_delivers_and_collects :
  (∀ now sc h,
     scheduledTime (sr_event (kDispatchScheduled now None None sc h)) = now
     ∧ cron (sr_event (kDispatchScheduled now None None sc h)) = ""
     ∧ Forall (λ i, inv_payload i = ScheduledPayload now "")
              (sr_invoked (kDispatchScheduled now None None sc h)))
  ∧ (∀ now t c sc h,
       scheduledTime (sr_event (kDispatchScheduled now (Some t) (Some c) sc h)) = t
       ∧ cron (sr_event (kDispatchScheduled now (Some t) (Some c) sc h)) = c
       ∧ Forall (λ i, inv_payload i = ScheduledPayload t c)
                (sr_invoked (kDispatchScheduled now (Some t) (Some c) sc h))
       ∧ ∀ s rest, scheduledListeners sc = s :: rest →
           [mkInvocation (l_ref (wrapped s)) (ScheduledPayload t c)]
             `prefix_of` sr_invoked (kDispatchScheduled now (Some t) (Some c) sc h))
  ∧ (∀ (p : Promise) (ev : ScheduledEvent),
       (ScheduledEventMethods.waitUntil p ev).2 = None
       ∧ sWaitUntil (ScheduledEventMethods.waitUntil p ev).1
         = sWaitUntil ev ++ [p])
  ∧ (∀ now st cr sc h a,
       sr_awaits (kDispatchScheduled now st cr sc h) = inr a →
       members a = sWaitUntil (sr_event (kDispatchScheduled now st cr sc h))
       ∧ ∀ later vs,
           scheduled_outcome (kDispatchScheduled now st cr sc h) (h ++ later)
           = ResolvesTo vs
           ↔ Forall2 (λ pr v, promise_state (h ++ later) pr = Fulfilled v)
                     (sWaitUntil (sr_event (kDispatchScheduled now st cr sc h)))
                     vs).
Proof.
  split; [|split; [|split]].
  - intros now sc h.
    destruct (kDispatchScheduled_event now None None sc h) as (? & ? & ? & _).
    done.
  - intros now t c sc h. apply (kDispatchScheduled_event now (Some t) (Some c)).
  - done.
  - intros now st cr sc h a Ha.
    assert (a = Promise_all
                  (sWaitUntil (sr_event (kDispatchScheduled now st cr sc h))) h)
      as ->.
    { revert Ha. unfold kDispatchScheduled.
      destruct (d_result _); simpl; [|done]. by intros [= <-]. }
    split; [done|]. intros later vs. unfold scheduled_outcome. rewrite Ha.
    set (a := Promise_all _ h).
    change (h ++ later) with (subscribed a ++ later).
    rewrite aggregate_state_at_app. split.
    + destruct (aggregate_state a later) eqn:Hs; try done.
      intros [= <-]. by apply aggregate_state_fulfilled.
    + intros Hall. by rewrite (aggregate_state_all_fulfilled a later vs Hall).
Qed.

Lemma scheduled_dispatch_delivers_and_collects_witness :
  scheduled_outcome
    (kDispatchScheduled 42 (Some 1000) (Some "* * * * *")
       (Samples.scheduled_scope_with [Samples.echo; Samples.two_promises]) [])
    ([] ++ [(2%nat, Fulfils (VString "b")); (1%nat, Fulfils (VString "a"))])
  = ResolvesTo [VNumber 1000; VString "* * * * *"; VString "a"; VString "b"].
Proof.
  destruct scheduled_dispatch_delivers_and_collects as (_ & _ & _ & H).
  destruct (H 42 (Some 1000) (Some "* * * * *")
              (Samples.scheduled_scope_with [Samples.echo; Samples.two_promises])
              []
              (mkAggregate [Resolved (VNumber 1000); Resolved (VString "* * * * *");
                            Ref 1; Ref 2] []))
    as [_ H']; [by vm_compute|].
  apply H'. vm_compute. repeat constructor.
Defined.

(** ** Module mode *)

(** C7.  In module mode [addEventListener], [removeEventListener] and
    [dispatchEvent] throw a [TypeError] that points to exported handlers,
    and leave the scope, with its listener lists and its table of shims, and
    the event exactly as they were; no listener is called. *)
Theorem imperative_api_disabled_in_modules :
  ∀ sc type listener event,
    modules sc = true →
    addEventListener type listener sc
    = (sc, Some (VError (modules_error "addEventListener")))
    ∧ removeEventListener type listener sc
      = (sc, Some (VError (modules_error "removeEventListener")))
    ∧ dispatchEvent event sc
      = mkDispatched sc event [] (inr (VError (modules_error "dispatchEvent")))
    ∧ ∀ name, err_name (modules_error name) = "TypeError".
Proof.
  intros sc type listener event Hm.
  unfold addEventListener, removeEventListener, dispatchEvent.
  by rewrite Hm.
Qed.

Lemma imperative_api_disabled_in_modules_witness :
  length (fetchListeners Samples.module_scope) = 1%nat
  ∧ addEventListener fetch_type (Some (Samples.idle 1)) Samples.module_scope
    = (Samples.module_scope, Some (VError (modules_error "addEventListener")))
  ∧ dispatchEvent (EFetch (new_FetchEvent Samples.req)) Samples.module_scope
    = mkDispatched Samples.module_scope (EFetch (new_FetchEvent Samples.req)) []
                   (inr (VError (modules_error "dispatchEvent"))).
Proof.
  destruct (imperative_api_disabled_in_modules Samples.module_scope fetch_type
              (Some (Samples.idle 1)) (EFetch (new_FetchEvent Samples.req)))
    as (H1 & _ & H3 & _); [reflexivity|].
  split; [reflexivity|]. split; [exact H1|exact H3].
Defined.

(** ** The table of shims *)

Lemma wrappedListeners_set_listeners type ls sc :
  wrappedListeners (set_listeners type ls sc) = wrappedListeners sc
  ∧ nextRef (set_listeners type ls sc) = nextRef sc
  ∧ modules (set_listeners type ls sc) = modules sc
  ∧ listeners_of type (set_listeners type ls sc) = ls.
Proof. by destruct type. Qed.

(** After [#wrap] has been called for a listener, the table holds its shim,
    and calling [#wrap] again gives that shim and changes nothing. *)
Lemma wrap_memo l sc :
  ∃ w, (wrap (Some l) sc).2 = Some w
       ∧ wrappedListeners (wrap (Some l) sc).1 !! l_ref l = Some w
       ∧ modules (wrap (Some l) sc).1 = modules sc
       ∧ (∀ type, listeners_of type (wrap (Some l) sc).1 = listeners_of type sc)
       ∧ ∀ sc', wrappedListeners sc' = wrappedListeners (wrap (Some l) sc).1 →
                wrap (Some l) sc' = (sc', Some w).
Proof.
  unfold wrap. destruct (wrappedListeners sc !! l_ref l) as [w|] eqn:Hl.
  - exists w. simpl. repeat split; try done.
    intros sc' ->. by rewrite Hl.
  - eexists. simpl. split; [done|]. split; [apply lookup_insert_eq|].
    split; [done|]. split; [by intros []|].
    intros sc' ->. by rewrite lookup_insert_eq.
Qed.






Lemma addEventListener_imperative type l sc w :
  modules sc = false → (wrap (Some l) sc).2 = Some w →
  addEventListener type (Some l) sc
  = (EventTarget.addEventListener type (Some w) (wrap (Some l) sc).1, None).
Proof.
  intros Hm Hw. unfold addEventListener, priv_addEventListener. rewrite Hm.
  destruct (wrap (Some l) sc) as [sc' ow]. cbn [fst snd] in *. by subst ow.
Qed.



(** * Further properties of the code *)

(** ** The registry and the table of shims *)

Lemma scope_wf_new modules : scope_wf (new_Scope modules).
Proof.
  split; [|split; [|split; [|split]]]; simpl.
  - intros r w H. by rewrite lookup_empty in H.
  - intros r1 r2 w1 w2 H. by rewrite lookup_empty in H.
  - intros [] s; simpl; by rewrite elem_of_nil.
  - intros []; simpl; constructor.
  - intros n [w Hw]. by rewrite lookup_empty in Hw.
Qed.

(** The listener lists and the table are all that well-formedness looks
    at. *)
Lemma scope_wf_same sc sc' :
  wrappedListeners sc' = wrappedListeners sc →
  fetchListeners sc' = fetchListeners sc →
  scheduledListeners sc' = scheduledListeners sc →
  nextRef sc' = nextRef sc →
  scope_wf sc → scope_wf sc'.
Proof.
  intros Hwl Hf Hs Hn (W1 & W2 & W3 & W4 & W5).
  assert (∀ type, listeners_of type sc' = listeners_of type sc) as Hls
    by by intros [].
  unfold scope_wf. rewrite Hwl, Hn.
  split; [done|]. split; [done|]. split; [|split; [|done]].
  - intros type s. rewrite Hls. apply W3.
  - intros type. rewrite Hls. apply W4.
Qed.

Lemma scope_wf_set_wrappedError err sc :
  scope_wf sc → scope_wf (set_wrappedError err sc).
Proof. by apply scope_wf_same. Qed.

Lemma scope_wf_warn message sc : scope_wf sc → scope_wf (warn message sc).
Proof. by apply scope_wf_same. Qed.

Lemma scope_wf_wrap listener sc :
  scope_wf sc → known_listener sc listener → scope_wf (wrap listener sc).1.
Proof.
  intros Hwf Hk. destruct listener as [l|]; [|done].
  unfold wrap. destruct (wrappedListeners sc !! l_ref l) as [w|] eqn:Hl; [done|].
  destruct Hwf as (W1 & W2 & W3 & W4 & W5). simpl in Hk.
  set (sc' := mkScope _ _ _ _ _ _ _).
  assert (∀ type, listeners_of type sc' = listeners_of type sc) as Hls
    by by intros [].
  split; [|split; [|split; [|split]]]; cbn [fst]; simpl.
  - intros r w H. apply lookup_insert_Some in H as [[<- <-]|[_ H]]; simpl.
    + split; [done|lia].
    + apply W1 in H. split; [tauto|lia].
  - intros r1 r2 w1 w2 H1 H2 Href.
    apply lookup_insert_Some in H1 as [[<- <-]|[_ H1]];
      apply lookup_insert_Some in H2 as [[<- <-]|[_ H2]]; try done.
    + apply W1 in H2. simpl in Href. lia.
    + apply W1 in H1. simpl in Href. lia.
    + by apply (W2 _ _ _ _ H1 H2).
  - intros type s Hs. rewrite Hls in Hs. pose proof (W3 type s Hs) as Hm.
    rewrite lookup_insert_ne; [done|]. intros Hk'. congruence.
  - intros type. rewrite Hls. apply W4.
  - intros n [w Hw]. apply lookup_insert_Some in Hw as [[Hr _]|[_ Hw]].
    + rewrite Hr in Hk. simpl in Hk. lia.
    + pose proof (W5 n (ex_intro _ w Hw)). lia.
Qed.

Lemma listeners_of_set_listeners type' type ls sc :
  listeners_of type' (set_listeners type ls sc)
  = if decide (type' = type) then ls else listeners_of type' sc.
Proof. by destruct type', type. Qed.

Lemma scope_wf_add type cb sc :
  scope_wf sc →
  (∀ w, cb = Some w → wrappedListeners sc !! l_ref (wrapped w) = Some w) →
  scope_wf (EventTarget.addEventListener type cb sc).
Proof.
  intros Hwf Hcb. unfold EventTarget.addEventListener.
  destruct cb as [w|]; [|done]. case_decide as Hin; [done|].
  destruct Hwf as (W1 & W2 & W3 & W4 & W5).
  destruct (wrappedListeners_set_listeners type (listeners_of type sc ++ [w]) sc)
    as (Hwl & Hn & _ & _).
  unfold scope_wf. rewrite Hwl, Hn.
  split; [done|]. split; [done|]. split; [|split; [|done]].
  - intros type' s. rewrite listeners_of_set_listeners. case_decide.
    + intros [Hs| ->%list_elem_of_singleton]%elem_of_app; [|by apply Hcb].
      by apply (W3 type).
    + apply W3.
  - intros type'. rewrite listeners_of_set_listeners. case_decide; [|apply W4].
    rewrite fmap_app. apply NoDup_app. split; [apply W4|].
    split; [|apply NoDup_singleton].
    intros x Hx ->%list_elem_of_singleton. done.
Qed.

Lemma scope_wf_remove type cb sc :
  scope_wf sc → scope_wf (EventTarget.removeEventListener type cb sc).
Proof.
  intros Hwf. unfold EventTarget.removeEventListener.
  destruct cb as [w|]; [|done].
  destruct Hwf as (W1 & W2 & W3 & W4 & W5).
  set (ls := filter _ _).
  destruct (wrappedListeners_set_listeners type ls sc) as (Hwl & Hn & _ & _).
  unfold scope_wf. rewrite Hwl, Hn.
  split; [done|]. split; [done|]. split; [|split; [|done]].
  - intros type' s. rewrite listeners_of_set_listeners. case_decide; [|apply W3].
    intros [_ Hs]%list_elem_of_filter. by apply (W3 type).
  - intros type'. rewrite listeners_of_set_listeners. case_decide; [|apply W4].
    apply (sublist_NoDup _ (shim_ref <$> listeners_of type sc)); [apply W4|].
    apply fmap_sublist, sublist_filter.
Qed.

Lemma wrap_result_in_table listener sc w :
  scope_wf sc → known_listener sc listener →
  (wrap listener sc).2 = Some w →
  wrappedListeners (wrap listener sc).1 !! l_ref (wrapped w) = Some w.
Proof.
  intros Hwf Hk Hw. pose proof (scope_wf_wrap listener sc Hwf Hk) as (W1 & _).
  destruct listener as [l|]; [|done].
  destruct (wrap_memo l sc) as (w' & Hw' & Hl & _).
  assert (w' = w) as -> by congruence.
  destruct (W1 _ _ Hl) as [-> _]. done.
Qed.

Lemma unfold_priv_addEventListener type listener sc :
  priv_addEventListener type listener sc
  = EventTarget.addEventListener type (wrap listener sc).2 (wrap listener sc).1.
Proof. unfold priv_addEventListener. by destruct (wrap listener sc). Qed.

Lemma unfold_removeEventListener type listener sc :
  modules sc = false →
  removeEventListener type listener sc
  = (EventTarget.removeEventListener type (wrap listener sc).2
       (wrap listener sc).1, None).
Proof.
  intros Hm. unfold removeEventListener. rewrite Hm.
  by destruct (wrap listener sc).
Qed.

Lemma scope_wf_priv_add type listener sc :
  scope_wf sc → known_listener sc listener →
  scope_wf (priv_addEventListener type listener sc).
Proof.
  intros Hwf Hk. rewrite unfold_priv_addEventListener.
  apply scope_wf_add; [by apply scope_wf_wrap|].
  intros w Hw. by apply wrap_result_in_table.
Qed.

Lemma scope_wf_new_closure body sc :
  scope_wf sc →
  scope_wf (new_closure body sc).1
  ∧ known_listener (new_closure body sc).1 (Some (new_closure body sc).2).
Proof.
  intros (W1 & W2 & W3 & W4 & W5). split; [|simpl; lia].
  assert (∀ type, listeners_of type (new_closure body sc).1
                  = listeners_of type sc) as Hls by by intros [].
  split; [|split; [|split; [|split]]]; simpl.
  - intros r w H. apply W1 in H. split; [tauto|lia].
  - done.
  - intros type s. rewrite Hls. apply W3.
  - intros type. rewrite Hls. apply W4.
  - intros n H. apply W5 in H. lia.
Qed.

Lemma fan_out_keeps ls sc ev seen :
  wrappedListeners (EventTarget.fan_out shim_call ls sc ev seen).1.1
  = wrappedListeners sc
  ∧ fetchListeners (EventTarget.fan_out shim_call ls sc ev seen).1.1
    = fetchListeners sc
  ∧ scheduledListeners (EventTarget.fan_out shim_call ls sc ev seen).1.1
    = scheduledListeners sc
  ∧ nextRef (EventTarget.fan_out shim_call ls sc ev seen).1.1 = nextRef sc
  ∧ modules (EventTarget.fan_out shim_call ls sc ev seen).1.1 = modules sc
  ∧ log (EventTarget.fan_out shim_call ls sc ev seen).1.1 = log sc.
Proof.
  pose proof (fan_out_scope ls sc ev seen (wrappedError sc)) as H.
  assert (set_wrappedError (wrappedError sc) sc = sc) as Heq by by destruct sc.
  rewrite Heq in H. by rewrite H.
Qed.

Lemma priv_dispatchEvent_keeps event sc :
  wrappedListeners (d_scope (priv_dispatchEvent event sc)) = wrappedListeners sc
  ∧ fetchListeners (d_scope (priv_dispatchEvent event sc)) = fetchListeners sc
  ∧ scheduledListeners (d_scope (priv_dispatchEvent event sc))
    = scheduledListeners sc
  ∧ nextRef (d_scope (priv_dispatchEvent event sc)) = nextRef sc
  ∧ modules (d_scope (priv_dispatchEvent event sc)) = modules sc
  ∧ log (d_scope (priv_dispatchEvent event sc)) = log sc.
Proof.
  unfold priv_dispatchEvent, EventTarget.dispatchEvent.
  pose proof (fan_out_keeps (listeners_of (event_type event)
                               (set_wrappedError VUndefined sc))
                (set_wrappedError VUndefined sc) event []) as H.
  destruct (EventTarget.fan_out _ _ _ _ _) as [[sc1 ev1] seen1].
  by destruct (wrappedError sc1).
Qed.

Lemma scope_untouched_start fetch request proxy sc h :
  scope_untouched sc (kDispatchFetch_start fetch request proxy sc h).
Proof.
  unfold kDispatchFetch_start, scope_untouched.
  destruct (priv_dispatchEvent_keeps
              (EFetch (new_FetchEvent (if proxy then clone request else request)))
              sc) as (H1 & H2 & H3 & H4 & H5 & H6).
  destruct (d_result _); [by auto 10|].
  unfold catch_block, after_try, finish, finally, warn.
  destruct (kPassThrough _); [destruct (get_stack _)|]; destruct proxy; simpl; rewrite ?H6;
    repeat (split; [done|]); (by left) || (right; split; [by eexists|done]).
Qed.

Lemma scope_untouched_step fetch request proxy sc w ev :
  scope_untouched sc w → scope_untouched sc (step fetch request proxy w ev).
Proof.
  unfold scope_untouched. intros (H1 & H2 & H3 & H4 & H5 & H6).
  destruct ev as [p s| |code]; simpl; [by auto 10| |by auto 10].
  unfold kDispatchFetch_resume.
  destruct (w_cont w) as [[pr|]|up a|o] eqn:Hc.
  - destruct H6 as [H6|[_ H6]]; [|by destruct (H6 (Some pr))].
    destruct (promise_state (w_history w) pr).
    + rewrite Hc. by auto 10.
    + case_decide; unfold after_try, finish, finally; [destruct proxy|];
        simpl; by auto 10.
    + unfold catch_block, after_try, finish, finally, warn.
      destruct (kPassThrough _); [destruct (get_stack _)|]; destruct proxy; simpl; rewrite ?H6;
        repeat (split; [done|]); (by left) || (right; split; [by eexists|done]).
  - destruct H6 as [H6|[_ H6]]; [|by destruct (H6 None)].
    unfold after_try, finish, finally. destruct proxy; simpl; by auto 10.
  - assert (∀ w', w_scope w' = w_scope w →
                  (∀ awaited, w_cont w' ≠ AwaitResponse awaited) →
                  scope_untouched sc w') as Hkeep.
    { intros w' Hs Hc'. unfold scope_untouched. rewrite Hs.
      repeat (split; [done|]). destruct H6 as [H6|[H6 _]]; [by left|by right]. }
    destruct (promise_state (w_history w) (Ref up)); apply Hkeep; try done.
    by rewrite Hc.
  - rewrite Hc. by auto 10.
Qed.

Lemma scope_untouched_run fetch request proxy sc h evs :
  scope_untouched sc (kDispatchFetch fetch request proxy sc h evs).
Proof.
  unfold kDispatchFetch.
  apply run_env_inv;
    [intros; by apply scope_untouched_step|apply scope_untouched_start].
Qed.

Lemma kDispatchScheduled_scope now st cr sc h :
  sr_scope (kDispatchScheduled now st cr sc h)
  = d_scope (priv_dispatchEvent
               (EScheduled (new_ScheduledEvent (default now st) (default "" cr)))
               sc).
Proof. unfold kDispatchScheduled. by destruct (d_result _). Qed.

(** X1.  The table of shims and the listener lists stay consistent.  A new
    scope is consistent, and every operation of the scope keeps it so:
    adding and removing listeners the program holds, registering exported
    handlers, and dispatching events of either kind. *)
Theorem registry_stays_consistent :
  (∀ modules, scope_wf (new_Scope modules))
  ∧ (∀ sc, scope_wf sc →
       (∀ type listener, known_listener sc listener →
          scope_wf (addEventListener type listener sc).1
          ∧ scope_wf (removeEventListener type listener sc).1)
       ∧ (∀ handler, scope_wf (kAddModuleFetchListener handler sc)
                     ∧ scope_wf (kAddModuleScheduledListener handler sc))
       ∧ (∀ event, scope_wf (d_scope (dispatchEvent event sc)))
       ∧ (∀ fetch request proxy h evs,
            scope_wf (w_scope (kDispatchFetch fetch request proxy sc h evs)))
       ∧ (∀ now st cr h,
            scope_wf (sr_scope (kDispatchScheduled now st cr sc h)))).
Proof.
  split; [apply scope_wf_new|]. intros sc Hwf.
  assert (∀ event, scope_wf (d_scope (priv_dispatchEvent event sc))) as Hd.
  { intros event.
    destruct (priv_dispatchEvent_keeps event sc) as (? & ? & ? & ? & _).
    by apply (scope_wf_same sc). }
  split; [|split; [|split; [|split]]].
  - intros type listener Hk. split.
    + unfold addEventListener. destruct (modules sc); [done|].
      by apply scope_wf_priv_add.
    + destruct (modules sc) eqn:Hm.
      * unfold removeEventListener. by rewrite Hm.
      * rewrite unfold_removeEventListener by done.
        by apply scope_wf_remove, scope_wf_wrap.
  - intros handler. unfold kAddModuleFetchListener, kAddModuleScheduledListener.
    split.
    + destruct (scope_wf_new_closure
                  (λ e, bind (handler e) (λ res, MRespondWith res ~> Ret tt))
                  sc Hwf) as [Hwf' Hk].
      destruct (new_closure _ sc) as [sc' closure].
      by apply scope_wf_priv_add.
    + destruct (scope_wf_new_closure
                  (λ e, bind (handler e)
                          (λ res, MWaitUntil (Promise_resolve res) ~> Ret tt))
                  sc Hwf) as [Hwf' Hk].
      destruct (new_closure _ sc) as [sc' closure].
      by apply scope_wf_priv_add.
  - intros event. unfold dispatchEvent. destruct (modules sc); [done|apply Hd].
  - intros fetch request proxy h evs.
    destruct (scope_untouched_run fetch request proxy sc h evs)
      as (? & ? & ? & ? & _).
    by apply (scope_wf_same sc).
  - intros now st cr h. rewrite kDispatchScheduled_scope. apply Hd.
Qed.

Lemma registry_stays_consistent_witness :
  scope_wf (removeEventListener fetch_type (Some (Samples.idle 1))
              (kAddModuleFetchListener (λ _, Ret (Plain Samples.responseA))
                 (new_Scope false))).1.
Proof.
  destruct registry_stays_consistent as [Hnew Hkeep].
  destruct (Hkeep (new_Scope false) (Hnew false)) as (_ & Hmod & _).
  destruct (Hkeep _ (proj1 (Hmod (λ _, Ret (Plain Samples.responseA)))))
    as (Hadd & _).
  by apply Hadd.
Defined.

(** ** One dispatch after another *)

Lemma shim_call_slot s sc sc' ev :
  (shim_call s sc ev).2 = (shim_call s sc' ev).2
  ∧ (wrappedError sc = wrappedError sc' →
     wrappedError (shim_call s sc ev).1 = wrappedError (shim_call s sc' ev).1).
Proof.
  unfold shim_call.
  by destruct (listener_call (wrapped s) ev) as [ev' [[]|e]].
Qed.

(** The fan-out uses the scope for the error slot only. *)
Lemma fan_out_any_scope ls sc sc' ev seen :
  wrappedError sc = wrappedError sc' →
  (EventTarget.fan_out shim_call ls sc ev seen).1.2
  = (EventTarget.fan_out shim_call ls sc' ev seen).1.2
  ∧ (EventTarget.fan_out shim_call ls sc ev seen).2
    = (EventTarget.fan_out shim_call ls sc' ev seen).2
  ∧ wrappedError (EventTarget.fan_out shim_call ls sc ev seen).1.1
    = wrappedError (EventTarget.fan_out shim_call ls sc' ev seen).1.1.
Proof.
  revert sc sc' ev seen. induction ls as [|s ls IH]; intros sc sc' ev seen Herr;
    simpl; [done|].
  destruct (stop_flag ev); [done|].
  destruct (shim_call_slot s sc sc' ev) as [Hev Hslot]. specialize (Hslot Herr).
  destruct (shim_call s sc ev) as [sc1 ev1], (shim_call s sc' ev) as [sc1' ev1'].
  simpl in *. subst ev1'. by apply IH.
Qed.

Lemma priv_dispatchEvent_any_scope event sc sc' :
  listeners_of (event_type event) sc' = listeners_of (event_type event) sc →
  d_event (priv_dispatchEvent event sc') = d_event (priv_dispatchEvent event sc)
  ∧ d_invoked (priv_dispatchEvent event sc')
    = d_invoked (priv_dispatchEvent event sc)
  ∧ d_result (priv_dispatchEvent event sc')
    = d_result (priv_dispatchEvent event sc).
Proof.
  intros Hls. unfold priv_dispatchEvent, EventTarget.dispatchEvent.
  assert (listeners_of (event_type event) (set_wrappedError VUndefined sc')
          = listeners_of (event_type event) (set_wrappedError VUndefined sc)) as ->.
  { by destruct (event_type event). }
  destruct (fan_out_any_scope
              (listeners_of (event_type event) (set_wrappedError VUndefined sc))
              (set_wrappedError VUndefined sc') (set_wrappedError VUndefined sc) event []
              eq_refl) as (He & Hs & Herr).
  destruct (EventTarget.fan_out _ _ (set_wrappedError VUndefined sc') _ _)
    as [[sc1' ev1'] seen1'].
  destruct (EventTarget.fan_out _ _ (set_wrappedError VUndefined sc) _ _)
    as [[sc1 ev1] seen1].
  simpl in *. subst. rewrite Herr. by destruct (wrappedError sc1).
Qed.

Lemma same_but_scope_step fetch request proxy w1 w2 ev :
  same_but_scope w1 w2 →
  same_but_scope (step fetch request proxy w1 ev)
                 (step fetch request proxy w2 ev).
Proof.
  unfold same_but_scope. intros (He & Hh & Hi & Hf & Hc).
  destruct ev as [p s| |code]; simpl.
  - by rewrite Hh.
  - unfold kDispatchFetch_resume, catch_block, after_try, finish, finally.
    rewrite <- Hc, <- Hh, <- He, <- Hf, <- Hi.
    repeat (case_match; simpl; try done); repeat split; congruence.
  - by rewrite He.
Qed.

(** X3.  A dispatch depends on the scope through its listener list only: the
    error slot, the log and the table of shims play no part.  So after a
    dispatch, also one that failed, a further dispatch in the scope it left
    behind goes exactly as it would have gone in the scope before: same
    continuation and outcome, same event, same listener calls, same
    requests forwarded. *)
Theorem earlier_dispatch_does_not_interfere :
  ∀ fetch0 request0 proxy0 h0 evs0 fetch request proxy sc h evs,
    same_but_scope
      (kDispatchFetch fetch request proxy
         (w_scope (kDispatchFetch fetch0 request0 proxy0 sc h0 evs0)) h evs)
      (kDispatchFetch fetch request proxy sc h evs).
Proof.
  intros fetch0 request0 proxy0 h0 evs0 fetch request proxy sc h evs.
  set (sc' := w_scope _).
  assert (fetchListeners sc' = fetchListeners sc) as Hls.
  { by destruct (scope_untouched_run fetch0 request0 proxy0 sc h0 evs0)
      as (_ & ? & _). }
  unfold kDispatchFetch.
  assert (same_but_scope (kDispatchFetch_start fetch request proxy sc' h)
                         (kDispatchFetch_start fetch request proxy sc h)) as H0.
  { unfold kDispatchFetch_start.
    destruct (priv_dispatchEvent_any_scope
                (EFetch (new_FetchEvent
                           (if proxy then clone request else request)))
                sc sc' Hls) as (He & Hi & Hr).
    rewrite He, Hi, Hr. clear He Hi Hr. unfold same_but_scope.
    destruct (d_result _); [done|].
    unfold catch_block, after_try, finish, finally. simpl.
    destruct (kPassThrough _); [destruct (get_stack _)|]; destruct proxy; done. }
  revert H0. generalize (kDispatchFetch_start fetch request proxy sc' h)
                        (kDispatchFetch_start fetch request proxy sc h).
  unfold run_env. induction evs as [|ev evs IH]; intros w1 w2 H; [done|].
  simpl. apply IH. by apply same_but_scope_step.
Qed.

(** ** Registration by listener identity *)

Lemma filter_ext_in {A} (P Q : A → Prop) `{!∀ x, Decision (P x)}
    `{!∀ x, Decision (Q x)} (l : list A) :
  (∀ x, x ∈ l → P x ↔ Q x) → filter P l = filter Q l.
Proof.
  induction l as [|a l IH]; intros Hext; [done|].
  rewrite !filter_cons.
  rewrite IH by (intros x Hx; apply Hext; by right).
  destruct (decide (P a)) as [HP|HP], (decide (Q a)) as [HQ|HQ]; try done.
  - destruct HQ. apply Hext; [by left|done].
  - destruct HP. apply Hext; [by left|done].
Qed.

(** In a consistent scope a registered callback has the identity of the
    shim of [l] exactly when it was built for [l]. *)
Lemma shim_of_listener sc type l w s :
  scope_wf sc → wrappedListeners sc !! l_ref l = Some w →
  s ∈ listeners_of type sc →
  shim_ref s = shim_ref w ↔ l_ref (wrapped s) = l_ref l.
Proof.
  intros (W1 & W2 & W3 & _) Hw Hs. pose proof (W3 type s Hs) as Hm. split.
  - intros Href. by apply (W2 _ _ _ _ Hm Hw).
  - intros Heq. rewrite Heq in Hm. congruence.
Qed.

Lemma wrap_in_wf sc l :
  scope_wf sc → known_ref sc (l_ref l) →
  ∃ w, (wrap (Some l) sc).2 = Some w
       ∧ scope_wf (wrap (Some l) sc).1
       ∧ wrappedListeners (wrap (Some l) sc).1 !! l_ref l = Some w
       ∧ l_ref (wrapped w) = l_ref l
       ∧ ∀ type, listeners_of type (wrap (Some l) sc).1 = listeners_of type sc.
Proof.
  intros Hwf Hk. destruct (wrap_memo l sc) as (w & Hw & Hl & _ & Hls & _).
  pose proof (scope_wf_wrap (Some l) sc Hwf Hk) as Hwf'.
  exists w. repeat (split; [done|]). split; [|done].
  destruct Hwf' as (W1 & _). by destruct (W1 _ _ Hl).
Qed.

(** X4.  In a consistent scope in imperative mode, [removeEventListener]
    takes out of the list of the given type the callback built for the
    given listener and nothing else: the other listeners stay, in their
    order, the lists of other types are not touched, and removing a
    listener that is not registered changes no list. *)
Theorem remove_takes_out_that_listener_only :
  ∀ sc type l,
    scope_wf sc → modules sc = false → known_ref sc (l_ref l) →
    listeners_of type (removeEventListener type (Some l) sc).1
    = filter (λ s, l_ref (wrapped s) ≠ l_ref l) (listeners_of type sc)
    ∧ (∀ type', type' ≠ type →
         listeners_of type' (removeEventListener type (Some l) sc).1
         = listeners_of type' sc)
    ∧ (¬ registered type l sc →
       listeners_of type (removeEventListener type (Some l) sc).1
       = listeners_of type sc).
Proof.
  intros sc type l Hwf Hm Hk.
  destruct (wrap_in_wf sc l Hwf Hk) as (w & Hw & Hwf' & Hl & _ & Hls).
  rewrite unfold_removeEventListener by done. rewrite Hw. cbn [fst].
  unfold EventTarget.removeEventListener.
  assert (listeners_of type
            (set_listeners type
               (filter (λ s', shim_ref s' ≠ shim_ref w)
                       (listeners_of type (wrap (Some l) sc).1))
               (wrap (Some l) sc).1)
          = filter (λ s, l_ref (wrapped s) ≠ l_ref l) (listeners_of type sc))
    as Hmain.
  { rewrite listeners_of_set_listeners, decide_True by done.
    rewrite <- (Hls type). apply filter_ext_in. intros s Hs.
    by rewrite (shim_of_listener _ type l w s Hwf' Hl Hs). }
  split; [done|]. split.
  - intros type' Hne. rewrite listeners_of_set_listeners, decide_False by done.
    apply Hls.
  - intros Hnot. rewrite Hmain. clear Hmain.
    assert (∀ s, s ∈ listeners_of type sc → l_ref (wrapped s) ≠ l_ref l) as Hall.
    { intros s Hs Heq. apply Hnot. unfold registered. rewrite <- Heq.
      by apply (list_elem_of_fmap_2 (λ s, l_ref (wrapped s))). }
    induction (listeners_of type sc) as [|s ls IH]; [done|].
    rewrite filter_cons_True by (apply Hall; by left).
    rewrite IH; [done|]. intros s' Hs'. apply Hall. by right.
Qed.

Lemma remove_takes_out_that_listener_only_witness :
  fetchListeners
    (removeEventListener fetch_type (Some (Samples.idle 2))
       (Samples.scope_with [Samples.idle 1; Samples.idle 2; Samples.idle 3])).1
  = [mkShim 0 (Samples.idle 1); mkShim 2 (Samples.idle 3)].
Proof.
  destruct (remove_takes_out_that_listener_only
              (Samples.scope_with [Samples.idle 1; Samples.idle 2; Samples.idle 3])
              fetch_type (Samples.idle 2)) as [H _].
  - apply (scope_wf_priv_add fetch_type (Some (Samples.idle 3))); [|done].
    apply (scope_wf_priv_add fetch_type (Some (Samples.idle 2))); [|done].
    apply (scope_wf_priv_add fetch_type (Some (Samples.idle 1))); [|done].
    apply scope_wf_new.
  - reflexivity.
  - exact I.
  - exact H.
Defined.

Lemma registered_shim sc type l w :
  scope_wf sc → wrappedListeners sc !! l_ref l = Some w →
  shim_ref w ∈ shim_ref <$> listeners_of type sc ↔ registered type l sc.
Proof.
  intros Hwf Hw. unfold registered. rewrite !list_elem_of_fmap. split.
  - intros (s & Href & Hs). exists s. split; [|done]. symmetry.
    by apply (shim_of_listener sc type l w s Hwf Hw Hs).
  - intros (s & Href & Hs). exists s. split; [|done]. symmetry.
    by apply (shim_of_listener sc type l w s Hwf Hw Hs).
Qed.

(** X5.  In a consistent scope in imperative mode, [addEventListener] goes
    by the identity of the listener: a listener already registered for the
    type leaves the lists as they are, and a listener not yet registered
    for it is appended at the end of the list of that type, as a callback
    built for it; the lists of other types are not touched. *)
Theorem add_appends_new_listener_once :
  ∀ sc type l,
    scope_wf sc → modules sc = false → known_ref sc (l_ref l) →
    (registered type l sc →
     listeners_of type (addEventListener type (Some l) sc).1
     = listeners_of type sc)
    ∧ (¬ registered type l sc →
       ∃ w, l_ref (wrapped w) = l_ref l
            ∧ listeners_of type (addEventListener type (Some l) sc).1
              = listeners_of type sc ++ [w])
    ∧ (∀ type', type' ≠ type →
         listeners_of type' (addEventListener type (Some l) sc).1
         = listeners_of type' sc)
    ∧ registered type l (addEventListener type (Some l) sc).1.
Proof.
  intros sc type l Hwf Hm Hk.
  destruct (wrap_in_wf sc l Hwf Hk) as (w & Hw & Hwf' & Hl & Href & Hls).
  rewrite (addEventListener_imperative type l sc w Hm Hw). cbn [fst].
  pose proof (registered_shim _ type l w Hwf' Hl) as Hreg.
  assert (registered type l (wrap (Some l) sc).1 ↔ registered type l sc) as Hreg'.
  { unfold registered. by rewrite Hls. }
  unfold EventTarget.addEventListener.
  split; [|split; [|split]].
  - intros Hr. rewrite decide_True by (apply Hreg, Hreg', Hr). apply Hls.
  - intros Hr. exists w. split; [done|].
    rewrite decide_False by (intros Hin; apply Hr, Hreg', Hreg, Hin).
    rewrite listeners_of_set_listeners, decide_True by done. by rewrite Hls.
  - intros type' Hne. case_decide; [apply Hls|].
    rewrite listeners_of_set_listeners, decide_False by done. apply Hls.
  - case_decide as Hin; [by apply Hreg|].
    unfold registered. rewrite listeners_of_set_listeners, decide_True by done.
    rewrite fmap_app, elem_of_app. right. simpl. rewrite Href. by left.
Qed.

Lemma add_appends_new_listener_once_witness :
  fetchListeners
    (addEventListener fetch_type (Some (Samples.idle 1))
       (Samples.scope_with [Samples.idle 1; Samples.idle 2])).1
  = fetchListeners (Samples.scope_with [Samples.idle 1; Samples.idle 2]).
Proof.
  destruct (add_appends_new_listener_once
              (Samples.scope_with [Samples.idle 1; Samples.idle 2])
              fetch_type (Samples.idle 1)) as [H _].
  - apply (scope_wf_priv_add fetch_type (Some (Samples.idle 2))); [|done].
    apply (scope_wf_priv_add fetch_type (Some (Samples.idle 1))); [|done].
    apply scope_wf_new.
  - reflexivity.
  - exact I.
  - apply H. unfold registered. by apply (bool_decide_unpack _).
Defined.

Lemma registered_refs_below sc type s :
  scope_wf sc → s ∈ listeners_of type sc → (shim_ref s < nextRef sc)%nat.
Proof.
  intros (W1 & _ & W3 & _) Hs. by destruct (W1 _ _ (W3 type s Hs)).
Qed.

Lemma add_closure type body sc :
  scope_wf sc →
  let closure := mkListener (ScopeClosure (nextRef sc)) (FunctionBody body) in
  listeners_of type
    (priv_addEventListener type (Some closure) (new_closure body sc).1)
  = listeners_of type sc ++ [mkShim (S (nextRef sc)) closure]
  ∧ (∀ type', type' ≠ type →
       listeners_of type'
         (priv_addEventListener type (Some closure) (new_closure body sc).1)
       = listeners_of type' sc)
  ∧ modules (priv_addEventListener type (Some closure) (new_closure body sc).1)
    = modules sc.
Proof.
  intros Hwf closure.
  assert (wrappedListeners sc !! ScopeClosure (nextRef sc) = None) as Hfresh.
  { destruct Hwf as (_ & _ & _ & _ & W5).
    destruct (wrappedListeners sc !! ScopeClosure (nextRef sc)) eqn:Hl; [|done].
    pose proof (W5 _ (ex_intro _ _ Hl)). lia. }
  set (sc0 := (new_closure body sc).1).
  set (sc' := mkScope (log sc) (modules sc)
                (<[ScopeClosure (nextRef sc) := mkShim (S (nextRef sc)) closure]>
                   (wrappedListeners sc))
                (wrappedError sc) (fetchListeners sc) (scheduledListeners sc)
                (S (S (nextRef sc)))).
  assert (wrap (Some closure) sc0 = (sc', Some (mkShim (S (nextRef sc)) closure)))
    as Hwrap.
  { unfold wrap, sc0, new_closure, closure. cbn [fst l_ref wrappedListeners].
    by rewrite Hfresh. }
  rewrite unfold_priv_addEventListener, Hwrap. cbn [fst snd].
  unfold EventTarget.addEventListener.
  assert (∀ type', listeners_of type' sc' = listeners_of type' sc) as Hls
    by by intros [].
  rewrite decide_False.
  - rewrite !listeners_of_set_listeners, decide_True by done.
    rewrite Hls. split; [done|]. split; [|by destruct type].
    intros type' Hne. rewrite listeners_of_set_listeners, decide_False by done.
    apply Hls.
  - rewrite Hls. intros (s & Href & Hs)%list_elem_of_fmap.
    pose proof (registered_refs_below sc type s Hwf Hs). simpl in Href. lia.
Qed.

Lemma scope_wf_kAddModuleFetchListener handler sc :
  scope_wf sc → scope_wf (kAddModuleFetchListener handler sc).
Proof.
  intros Hwf. unfold kAddModuleFetchListener.
  destruct (scope_wf_new_closure
              (λ e, bind (handler e) (λ res, MRespondWith res ~> Ret tt))
              sc Hwf) as [Hwf' Hk].
  destruct (new_closure _ sc) as [sc' closure].
  by apply scope_wf_priv_add.
Qed.

(** X6.  In a consistent scope, in either mode, every call of
    [kAddModuleFetchListener] appends one new callback, built around a new
    closure over the handler, to the fetch list, and every call of
    [kAddModuleScheduledListener] one to the scheduled list; the other list
    and the mode stay as they were.  No check for a handler registered
    before is made, and the mode is not looked at. *)
Theorem module_listener_always_appended :
  ∀ sc handler,
    scope_wf sc →
    (fetchListeners (kAddModuleFetchListener handler sc)
     = fetchListeners sc
       ++ [mkShim (S (nextRef sc))
             (mkListener (ScopeClosure (nextRef sc))
                (FunctionBody (fetch_adapter handler)))]
     ∧ scheduledListeners (kAddModuleFetchListener handler sc)
       = scheduledListeners sc
     ∧ modules (kAddModuleFetchListener handler sc) = modules sc)
    ∧ (scheduledListeners (kAddModuleScheduledListener handler sc)
       = scheduledListeners sc
         ++ [mkShim (S (nextRef sc))
               (mkListener (ScopeClosure (nextRef sc))
                  (FunctionBody (scheduled_adapter handler)))]
       ∧ fetchListeners (kAddModuleScheduledListener handler sc)
         = fetchListeners sc
       ∧ modules (kAddModuleScheduledListener handler sc) = modules sc).
Proof.
  intros sc handler Hwf. split.
  - destruct (add_closure fetch_type (fetch_adapter handler) sc Hwf)
      as (H1 & H2 & H3).
    split; [exact H1|]. split; [|exact H3].
    by apply (H2 scheduled_type).
  - destruct (add_closure scheduled_type (scheduled_adapter handler) sc Hwf)
      as (H1 & H2 & H3).
    split; [exact H1|]. split; [|exact H3].
    by apply (H2 fetch_type).
Qed.

Lemma module_listener_always_appended_witness :
  length (fetchListeners
            (kAddModuleFetchListener (λ _, Ret (Plain Samples.responseA))
               Samples.module_scope)) = 2%nat.
Proof.
  destruct (module_listener_always_appended Samples.module_scope
              (λ _, Ret (Plain Samples.responseA))) as [(H & _) _].
  - apply scope_wf_kAddModuleFetchListener, scope_wf_new.
  - rewrite H. reflexivity.
Defined.

(** ** Exported handlers *)

Lemma run_bind {A B} (p : Prog A) (f : A → Prog B) ev :
  run (bind p f) ev
  = match run p ev with
    | (ev', inl r) => run (f r) ev'
    | (ev', inr e) => (ev', inr e)
    end.
Proof.
  revert ev. induction p as [r|e|m k IHk catch IHc]; intros ev; simpl;
    [done|done|].
  destruct (call_method m ev) as [ev' [e|]]; [apply IHc|apply IHk].
Qed.

(** Code that goes through the context neither responds nor stops
    propagation, and its calls do not throw. *)
Lemma ctx_only_run {R} (p : Prog R) e :
  ctx_only p →
  ∃ e', (run p (EFetch e)).1 = EFetch e'
        ∧ kResponse e' = kResponse e ∧ stopped e' = stopped e
        ∧ kSent e' = kSent e.
Proof.
  revert e. induction p as [r|err|m k IHk catch IHc]; intros e; simpl.
  - by exists e.
  - by exists e.
  - intros (Hm & Hk & _). destruct m as [r| |p|]; try done.
    + destruct (IHk (FetchEventMethods.passThroughOnException e).1 Hk)
        as (e' & He' & ? & ? & ?). by exists e'.
    + destruct (IHk (FetchEventMethods.waitUntil p e).1 Hk)
        as (e' & He' & ? & ? & ?). by exists e'.
Qed.

Lemma dispatch_single event sc s :
  listeners_of (event_type event) sc = [s] →
  stop_flag event = false →
  priv_dispatchEvent event sc
  = match listener_call (wrapped s) event with
    | (event', inl _) =>
        mkDispatched (set_wrappedError VUndefined sc) event'
          [mkInvocation (l_ref (wrapped s)) (payload_of event)] (inl true)
    | (event', inr e) =>
        mkDispatched (set_wrappedError e sc)
          (stopImmediatePropagation event')
          [mkInvocation (l_ref (wrapped s)) (payload_of event)]
          (if decide (e ≠ VUndefined) then inr e else inl true)
    end.
Proof.
  intros Hls Hstop. unfold priv_dispatchEvent, EventTarget.dispatchEvent.
  assert (listeners_of (event_type event) (set_wrappedError VUndefined sc) = [s])
    as -> by (by destruct (event_type event)).
  simpl. rewrite Hstop. unfold shim_call.
  destruct (listener_call (wrapped s) event) as [ev' [[]|e]]; simpl; [done|].
  by case_decide.
Qed.

Lemma response_resolves fetch request proxy sc h evs pr :
  w_cont (kDispatchFetch_start fetch request proxy sc h)
  = AwaitResponse (Some pr) →
  ∀ v, promise_state
         (w_history (kDispatchFetch fetch request proxy sc h evs)) pr
       = Fulfilled v →
       v ≠ VUndefined →
       ∃ a, kWaitUntil (w_event (kDispatchFetch_start fetch request proxy sc h))
              `prefix_of` members a
            ∧ (w_cont (kDispatchFetch fetch request proxy sc h evs)
               = Settled (Resolves v a)
               ∨ (w_cont (kDispatchFetch fetch request proxy sc h evs)
                  = AwaitResponse (Some pr)
                  ∧ w_cont (step fetch request proxy
                              (kDispatchFetch fetch request proxy sc h evs)
                              Resume)
                    = Settled (Resolves v a))).
Proof.
  intros H0 v Hv Hu.
  set (w0 := kDispatchFetch_start fetch request proxy sc h) in *.
  set (w := kDispatchFetch fetch request proxy sc h evs) in *.
  assert (responds_with pr w) as Hinv.
  { unfold w, kDispatchFetch. fold w0.
    apply run_env_inv; [intros; by apply responds_with_step|by left]. }
  assert (tasks_reflected (kWaitUntil (w_event w0)) w) as [Hev Hagg].
  { unfold w, kDispatchFetch. fold w0.
    apply run_env_inv; [intros; by apply tasks_reflected_step|].
    apply tasks_reflected_start. }
  destruct Hinv as [Hc|[_ Hs]].
  - exists (Promise_all (kWaitUntil (w_event w)) (w_history w)).
    split; [done|]. right. split; [done|]. simpl.
    unfold kDispatchFetch_resume. rewrite Hc, Hv. by rewrite decide_False.
  - destruct (Hs v Hv Hu) as [a Ha]. exists a. rewrite Ha in Hagg.
    split; [tauto|by left].
Qed.

Lemma module_fetch_dispatch request (proxy : bool) sc handler :
  scope_wf sc → fetchListeners sc = [] →
  priv_dispatchEvent
    (EFetch (new_FetchEvent (if proxy then clone request else request)))
    (kAddModuleFetchListener handler sc)
  = match run (fetch_adapter handler
                 (FetchPayload (if proxy then clone request else request)))
              (EFetch (new_FetchEvent
                         (if proxy then clone request else request))) with
    | (event', inl _) =>
        mkDispatched
          (set_wrappedError VUndefined (kAddModuleFetchListener handler sc)) event'
          [mkInvocation (ScopeClosure (nextRef sc))
             (FetchPayload (if proxy then clone request else request))]
          (inl true)
    | (event', inr e) =>
        mkDispatched
          (set_wrappedError e (kAddModuleFetchListener handler sc))
          (stopImmediatePropagation event')
          [mkInvocation (ScopeClosure (nextRef sc))
             (FetchPayload (if proxy then clone request else request))]
          (if decide (e ≠ VUndefined) then inr e else inl true)
    end.
Proof.
  intros Hwf Hempty.
  pose proof (add_closure fetch_type (fetch_adapter handler) sc Hwf) as H.
  cbv zeta in H. destruct H as (Hls & _).
  change (listeners_of fetch_type sc) with (fetchListeners sc) in Hls.
  rewrite Hempty in Hls.
  exact (dispatch_single
           (EFetch (new_FetchEvent (if proxy then clone request else request)))
           (kAddModuleFetchListener handler sc) _ Hls eq_refl).
Qed.

(** X7.  A scope whose only fetch listener is an exported handler, in
    either mode.  When the handler, acting on the event through its context
    only, returns [res], the adapter calls [respondWith(res)]: the
    dispatcher awaits [Promise.resolve(res)], and once that is fulfilled
    with a value [v] other than [undefined] the dispatch resolves to [v],
    with the tasks the handler queued among the members of the background
    future. *)
Theorem module_fetch_handler_responds :
  ∀ fetch request (proxy : bool) sc handler h evs ev' res,
    scope_wf sc → fetchListeners sc = [] →
    ctx_only (handler (FetchPayload (if proxy then clone request else request))) →
    run (handler (FetchPayload (if proxy then clone request else request)))
        (EFetch (new_FetchEvent (if proxy then clone request else request)))
    = (EFetch ev', inl res) →
    let w := kDispatchFetch fetch request proxy
               (kAddModuleFetchListener handler sc) h evs in
    w_invoked w
    = [mkInvocation (ScopeClosure (nextRef sc))
         (FetchPayload (if proxy then clone request else request))]
    ∧ ∀ v, promise_state (w_history w) (Promise_resolve res) = Fulfilled v →
           v ≠ VUndefined →
           ∃ a, kWaitUntil ev' `prefix_of` members a
                ∧ (w_cont w = Settled (Resolves v a)
                   ∨ (w_cont w = AwaitResponse (Some (Promise_resolve res))
                      ∧ w_cont (step fetch request proxy w Resume)
                        = Settled (Resolves v a))).
Proof.
  intros fetch request proxy sc handler h evs ev' res Hwf Hempty Hctx Hrun w.
  pose proof (module_fetch_dispatch request proxy sc handler Hwf Hempty)
    as Hd.
  destruct (ctx_only_run _ (new_FetchEvent
                              (if proxy then clone request else request)) Hctx)
    as (e1 & He1 & Hresp & _ & Hsent).
  rewrite Hrun in He1. simpl in He1. injection He1 as <-.
  unfold fetch_adapter in Hd. rewrite run_bind, Hrun in Hd. simpl in Hd.
  unfold lift_fetch, FetchEventMethods.respondWith in Hd.
  rewrite Hresp, Hsent in Hd. simpl in Hd.
  set (sc' := kAddModuleFetchListener handler sc) in *.
  set (w0 := kDispatchFetch_start fetch request proxy sc' h).
  assert (w_invoked w0
          = [mkInvocation (ScopeClosure (nextRef sc))
               (FetchPayload (if proxy then clone request else request))]
          ∧ w_cont w0 = AwaitResponse (Some (Promise_resolve res))
          ∧ kWaitUntil (w_event w0) = kWaitUntil ev') as (H1 & H2 & H3).
  { unfold w0, kDispatchFetch_start. by rewrite Hd. }
  split.
  - unfold w, kDispatchFetch. fold w0. by rewrite run_env_invoked.
  - intros v Hv Hu. rewrite <- H3.
    by apply (response_resolves fetch request proxy sc' h evs _ H2).
Qed.

Lemma module_fetch_handler_responds_witness :
  w_cont (kDispatchFetch Samples.fetch100 Samples.req false
            (kAddModuleFetchListener
               (λ _, MWaitUntil (Ref 1) ~> Ret (Plain Samples.responseA))
               (new_Scope true)) [] [Resume])
  = Settled (Resolves Samples.responseA (mkAggregate [Ref 1] [])).
Proof.
  destruct (module_fetch_handler_responds Samples.fetch100 Samples.req false
              (new_Scope true)
              (λ _, MWaitUntil (Ref 1) ~> Ret (Plain Samples.responseA))
              [] [Resume]
              (FetchEventMethods.waitUntil (Ref 1)
                 (new_FetchEvent Samples.req)).1
              (Plain Samples.responseA))
    as [_ H].
  - apply scope_wf_new.
  - reflexivity.
  - simpl. auto.
  - reflexivity.
  - destruct (H Samples.responseA) as (a & _ & [Ha|[Ha _]]);
      [reflexivity|discriminate| |].
    + rewrite Ha. revert Ha. vm_compute. by intros [= <-].
    + revert Ha. by vm_compute.
Defined.

Lemma module_scheduled_dispatch (t : Z) (c : string) sc handler :
  scope_wf sc → scheduledListeners sc = [] →
  priv_dispatchEvent (EScheduled (new_ScheduledEvent t c))
    (kAddModuleScheduledListener handler sc)
  = match run (scheduled_adapter handler (ScheduledPayload t c))
              (EScheduled (new_ScheduledEvent t c)) with
    | (event', inl _) =>
        mkDispatched
          (set_wrappedError VUndefined (kAddModuleScheduledListener handler sc))
          event'
          [mkInvocation (ScopeClosure (nextRef sc)) (ScheduledPayload t c)]
          (inl true)
    | (event', inr e) =>
        mkDispatched
          (set_wrappedError e (kAddModuleScheduledListener handler sc))
          (stopImmediatePropagation event')
          [mkInvocation (ScopeClosure (nextRef sc)) (ScheduledPayload t c)]
          (if decide (e ≠ VUndefined) then inr e else inl true)
    end.
Proof.
  intros Hwf Hempty.
  pose proof (add_closure scheduled_type (scheduled_adapter handler) sc Hwf)
    as H.
  cbv zeta in H. destruct H as (Hls & _).
  change (listeners_of scheduled_type sc) with (scheduledListeners sc) in Hls.
  rewrite Hempty in Hls.
  exact (dispatch_single (EScheduled (new_ScheduledEvent t c))
           (kAddModuleScheduledListener handler sc) _ Hls eq_refl).
Qed.

(** X9.  A scope whose only scheduled listener is an exported handler, in
    either mode.  The handler is called with the time and the cron string
    of the dispatch.  When it returns [res], the adapter queues
    [Promise.resolve(res)] after the tasks the handler queued itself, so
    the dispatch resolves, once all of these are fulfilled, to the values
    of the handler's tasks followed by the value of [res].  When it throws
    a value [e] other than [undefined], the dispatch rejects with [e]; when
    it throws [undefined], nothing is rethrown and the dispatch awaits the
    tasks the handler queued before the throw. *)
Theorem module_scheduled_handler_result_is_last_task :
  ∀ now st cr sc handler h,
    scope_wf sc → scheduledListeners sc = [] →
    let t := default now st in
    let c := default "" cr in
    let r := kDispatchScheduled now st cr
               (kAddModuleScheduledListener handler sc) h in
    sr_invoked r
    = [mkInvocation (ScopeClosure (nextRef sc)) (ScheduledPayload t c)]
    ∧ (∀ ev' res,
         run (handler (ScheduledPayload t c))
             (EScheduled (new_ScheduledEvent t c))
         = (EScheduled ev', inl res) →
         sWaitUntil (sr_event r) = sWaitUntil ev' ++ [Promise_resolve res]
         ∧ ∀ later vs,
             scheduled_outcome r (h ++ later) = ResolvesTo vs
             ↔ Forall2 (λ pr v, promise_state (h ++ later) pr = Fulfilled v)
                       (sWaitUntil ev' ++ [Promise_resolve res]) vs)
    ∧ (∀ ev' e,
         run (handler (ScheduledPayload t c))
             (EScheduled (new_ScheduledEvent t c))
         = (EScheduled ev', inr e) →
         (e ≠ VUndefined →
          ∀ h', scheduled_outcome r h' = ScheduledRejects e)
         ∧ (e = VUndefined →
            sr_awaits r = inr (Promise_all (sWaitUntil ev') h))).
Proof.
  intros now st cr sc handler h Hwf Hempty t c r.
  pose proof (module_scheduled_dispatch t c sc handler Hwf Hempty) as Hd.
  unfold scheduled_adapter in Hd. rewrite run_bind in Hd.
  unfold r, kDispatchScheduled. fold t c.
  split; [|split].
  - destruct (run (handler (ScheduledPayload t c))
                  (EScheduled (new_ScheduledEvent t c))) as [ev1 [res|e]].
    + destruct ev1 as [ef|es]; simpl in Hd; by rewrite Hd.
    + rewrite Hd. simpl. by case_decide.
  - intros ev' res Hrun. rewrite Hrun in Hd. simpl in Hd. rewrite Hd. simpl.
    split; [done|]. intros later vs. unfold scheduled_outcome. simpl.
    set (a := Promise_all _ h).
    change (h ++ later) with (subscribed a ++ later).
    rewrite aggregate_state_at_app. split.
    + destruct (aggregate_state a later) eqn:Hs; try done.
      intros [= <-]. by apply aggregate_state_fulfilled.
    + intros Hall. by rewrite (aggregate_state_all_fulfilled a later vs Hall).
  - intros ev' e Hrun. rewrite Hrun in Hd. split.
    + intros Hdef h'. rewrite decide_True in Hd by done. by rewrite Hd.
    + intros ->. rewrite decide_False in Hd by (by intros H).
      by rewrite Hd.
Qed.

Lemma module_scheduled_handler_result_is_last_task_witness :
  scheduled_outcome
    (kDispatchScheduled 42 (Some 1000) None
       (kAddModuleScheduledListener
          (λ _, MWaitUntil (Ref 1) ~> Ret (Plain (VString "done")))
          (new_Scope true)) [])
    ([] ++ [(1%nat, Fulfils (VNumber 7))])
  = ResolvesTo [VNumber 7; VString "done"].
Proof.
  destruct (module_scheduled_handler_result_is_last_task 42 (Some 1000) None
              (new_Scope true)
              (λ _, MWaitUntil (Ref 1) ~> Ret (Plain (VString "done"))) []
              (scope_wf_new true) eq_refl) as (_ & H & _).
  destruct (H (ScheduledEventMethods.waitUntil (Ref 1)
                 (new_ScheduledEvent 1000 "")).1
              (Plain (VString "done")) eq_refl) as [_ H'].
  apply H'. vm_compute. repeat constructor.
Defined.

(** ** Requests no listener answers *)

Lemma forwarded_outcome_step fetch request proxy up a w ev :
  forwarded_outcome up a w →
  forwarded_outcome up a (step fetch request proxy w ev)
  ∧ w_forwarded (step fetch request proxy w ev) = w_forwarded w
  ∧ w_scope (step fetch request proxy w ev) = w_scope w.
Proof.
  unfold forwarded_outcome. intros Hf. destruct ev as [p s| |code]; simpl.
  - split; [|done].
    destruct (settle_extends p s (w_history w)) as [later ->].
    destruct (w_cont w) as [|up' a'|[r a'|e]]; try done.
    + destruct Hf as [-> Hr]. split; [done|].
      rewrite promise_state_stable; [done|]. by rewrite Hr.
    + rewrite promise_state_stable; [done|]. by rewrite Hf.
  - unfold kDispatchFetch_resume.
    destruct (w_cont w) as [|up' a'|o] eqn:Hw; [done| |by rewrite Hw].
    destruct Hf as [-> ->].
    destruct (promise_state (w_history w) (Ref up)) eqn:Hst; simpl;
      [by rewrite Hw|done|done].
  - done.
Qed.

Lemma took_unhandled_path_step fetch request proxy w ev :
  took_unhandled_path fetch request proxy w →
  took_unhandled_path fetch request proxy (step fetch request proxy w ev)
  ∧ w_scope (step fetch request proxy w ev) = w_scope w.
Proof.
  unfold took_unhandled_path. intros [Hsent Hpath].
  assert (kSent (w_event (step fetch request proxy w ev)) = true) as Hsent'.
  { destruct ev as [p s| |code]; simpl; [done| |].
    - unfold kDispatchFetch_resume, catch_block, after_try, finish, finally.
      repeat (case_match; simpl; try done).
    - by apply (late_event_shape (λ e, kSent e = true));
        [apply kSent_stable|]. }
  destruct proxy.
  - destruct Hpath as (fwd & Hfw & Hwo & a & Ha).
    destruct (forwarded_outcome_step fetch request true _ _ w ev Ha)
      as (Ha' & Hfw' & Hs').
    rewrite Hfw'. eauto 10.
  - destruct Hpath as [Hfw Hc].
    destruct (run_env_settled fetch request false [ev] w _ Hc)
      as (Hc' & Hs' & Hfw' & _).
    simpl in *. rewrite Hfw'. eauto.
Qed.

Lemma after_try_unhandled fetch request proxy w :
  w_forwarded w = [] →
  took_unhandled_path fetch request proxy
    (after_try fetch request proxy (finally w))
  ∧ w_scope (after_try fetch request proxy (finally w)) = w_scope w.
Proof.
  intros Hfw. unfold took_unhandled_path, after_try, finish, finally.
  destruct proxy; simpl; rewrite Hfw; [|done].
  split; [|done]. split; [done|].
  exists (headers_delete "host" request).
  split; [done|]. split; [apply headers_delete_without|].
  eexists. unfold forwarded_outcome. simpl. done.
Qed.

Lemma unanswered_step fetch request proxy w ev :
  unanswered fetch request proxy w →
  unanswered fetch request proxy (step fetch request proxy w ev)
  ∧ w_scope (step fetch request proxy w ev) = w_scope w.
Proof.
  intros [[Hc Hfw]|Hpath].
  - destruct ev as [p s| |code]; simpl.
    + split; [|done]. by left.
    + unfold kDispatchFetch_resume. rewrite Hc.
      destruct (after_try_unhandled fetch request proxy w Hfw). split; [|done].
      by right.
    + split; [|done]. by left.
  - destruct (took_unhandled_path_step fetch request proxy w ev Hpath).
    split; [|done]. by right.
Qed.

Lemma unanswered_run fetch request proxy evs w0 :
  w_cont w0 = AwaitResponse None → w_forwarded w0 = [] →
  unanswered fetch request proxy (run_env fetch request proxy evs w0)
  ∧ w_scope (run_env fetch request proxy evs w0) = w_scope w0.
Proof.
  intros Hc0 Hfw0.
  apply (run_env_inv _ _ _
           (λ w', unanswered fetch request proxy w'
                  ∧ w_scope w' = w_scope w0)).
  - intros w' ev [Hu Hs].
    destruct (unanswered_step fetch request proxy w' ev Hu) as [Hu' Hs'].
    split; [done|congruence].
  - split; [by left|done].
Qed.

(** X10.  The fan-out ends with nothing to rethrow and with no response
    stored.  Then nothing is logged, and the dispatch takes the path of an
    unanswered request as soon as it resumes, also when code of the
    program acts on the event in between: the window is closed, and with
    [proxy] one request goes to the forwarder, the original without its
    [host] header and otherwise as it was, and the dispatch settles as the
    forwarder's promise does; without [proxy] it rejects with the
    unhandled-request error. *)
Theorem unanswered_request_falls_back :
  ∀ fetch request (proxy : bool) sc h evs b,
    d_result (priv_dispatchEvent
                (EFetch (new_FetchEvent
                           (if proxy then clone request else request))) sc)
    = inl b →
    kResponse
      (as_fetch
         (d_event (priv_dispatchEvent
                     (EFetch (new_FetchEvent
                                (if proxy then clone request else request)))
                     sc))
         (new_FetchEvent (if proxy then clone request else request)))
    = None →
    let w := kDispatchFetch fetch request proxy sc h evs in
    log (w_scope w) = log sc
    ∧ unanswered fetch request proxy w
    ∧ (w_cont w = AwaitResponse None →
       took_unhandled_path fetch request proxy
         (step fetch request proxy w Resume)).
Proof.
  intros fetch request proxy sc h evs b Hres Hnone w.
  set (w0 := kDispatchFetch_start fetch request proxy sc h).
  assert (w_cont w0 = AwaitResponse None ∧ w_forwarded w0 = []
          ∧ log (w_scope w0) = log sc) as (Hc0 & Hfw0 & Hlog0).
  { unfold w0, kDispatchFetch_start. rewrite Hres. simpl. rewrite Hnone.
    split; [done|]. split; [done|]. apply priv_dispatchEvent_keeps. }
  assert (unanswered fetch request proxy w ∧ w_scope w = w_scope w0)
    as [Hun Hsc].
  { unfold w, kDispatchFetch. fold w0. by apply unanswered_run. }
  rewrite Hsc. split; [done|]. split; [done|].
  intros Hc. destruct Hun as [[_ Hfw]|Hpath].
  - simpl. unfold kDispatchFetch_resume. rewrite Hc.
    by apply after_try_unhandled.
  - by apply took_unhandled_path_step.
Qed.

Lemma unanswered_request_falls_back_witness :
  w_cont (kDispatchFetch Samples.fetch100 Samples.req true
            (Samples.three (MWaitUntil (Ref 1) ~> Ret tt)) []
            [Resume; Settle 100 (Fulfils Samples.upstreamResponse); Resume])
  = Settled (Resolves Samples.upstreamResponse (mkAggregate [Ref 1] []))
  ∧ unanswered Samples.fetch100 Samples.req true
      (kDispatchFetch Samples.fetch100 Samples.req true
         (Samples.three (MWaitUntil (Ref 1) ~> Ret tt)) []
         [Resume; Settle 100 (Fulfils Samples.upstreamResponse); Resume]).
Proof.
  split; [by vm_compute|].
  by apply (unanswered_request_falls_back Samples.fetch100 Samples.req true
              (Samples.three (MWaitUntil (Ref 1) ~> Ret tt)) []
              [Resume; Settle 100 (Fulfils Samples.upstreamResponse); Resume]
              true).
Defined.

(** X8.  A scope whose only fetch listener is an exported handler that
    throws [e].  When [e] is not [undefined] the dispatcher catches it.
    If the handler has not asked for pass-through the dispatch rejects with
    [e], nothing goes to the forwarder and nothing is logged.  If it has,
    the dispatcher reads [e.stack]: what the read gives is logged and the
    dispatch takes the path of an unanswered request (forwarder with
    [proxy], unhandled-request error without); when the read throws, as it
    does for [null], nothing is logged, nothing goes to the forwarder and
    the dispatch rejects with the error of the read.  When [e] is
    [undefined] nothing is rethrown, whatever the flag: nothing is logged
    and, the handler having acted through its context only, the request
    counts as unanswered. *)
Theorem module_fetch_handler_throws :
  ∀ fetch request (proxy : bool) sc handler h evs ev' e,
    scope_wf sc → fetchListeners sc = [] →
    run (handler (FetchPayload (if proxy then clone request else request)))
        (EFetch (new_FetchEvent (if proxy then clone request else request)))
    = (EFetch ev', inr e) →
    let sc' := kAddModuleFetchListener handler sc in
    let w := kDispatchFetch fetch request proxy sc' h evs in
    (e ≠ VUndefined →
     if kPassThrough ev' then
       match get_stack e with
       | inl stack =>
           log (w_scope w) = log sc' ++ [stack]
           ∧ took_unhandled_path fetch request proxy w
       | inr error =>
           w_cont w = Settled (RejectsWith error)
           ∧ w_forwarded w = []
           ∧ log (w_scope w) = log sc'
       end
     else
       w_cont w = Settled (RejectsWith e)
       ∧ w_forwarded w = []
       ∧ log (w_scope w) = log sc')
    ∧ (e = VUndefined →
       ctx_only (handler (FetchPayload
                            (if proxy then clone request else request))) →
       log (w_scope w) = log sc'
       ∧ unanswered fetch request proxy w).
Proof.
  intros fetch request proxy sc handler h evs ev' e Hwf Hempty Hrun sc' w.
  pose proof (module_fetch_dispatch request proxy sc handler Hwf Hempty)
    as Hd.
  unfold fetch_adapter in Hd. rewrite run_bind, Hrun in Hd. fold sc' in Hd.
  set (w0 := kDispatchFetch_start fetch request proxy sc' h).
  split.
  - intros Hdef. rewrite decide_True in Hd by done.
    assert (w0 = catch_block fetch request proxy e
                   (mkWorld (set_wrappedError e sc')
                      (FetchEventMethods.stopImmediatePropagation ev') h
                      [mkInvocation (ScopeClosure (nextRef sc))
                         (FetchPayload
                            (if proxy then clone request else request))]
                      []
                      (AwaitResponse (kResponse ev')))) as Hw0.
    { unfold w0, kDispatchFetch_start. by rewrite Hd. }
    assert (window_closed_after_try (run_env fetch request proxy evs w0))
      as Hwin.
    { apply run_env_inv; [intros; by apply window_closed_step|].
      apply window_closed_start. }
    unfold window_closed_after_try in Hwin.
    assert (log (w_scope w0)
            = (if kPassThrough ev' then
                 match get_stack e with
                 | inl stack => log sc' ++ [stack]
                 | inr _ => log sc'
                 end
               else log sc')
            ∧ w_forwarded w0
              = (if kPassThrough ev' then
                   match get_stack e with
                   | inl _ =>
                       if proxy then [headers_delete "host" request] else []
                   | inr _ => []
                   end
                 else [])
            ∧ w_cont w0
              = (if kPassThrough ev' then
                   match get_stack e with
                   | inl _ =>
                       if proxy then
                         AwaitFetch (fetch (headers_delete "host" request))
                                    (Promise_all (kWaitUntil ev') h)
                       else Settled (RejectsWith unhandled_error)
                   | inr error => Settled (RejectsWith error)
                   end
                 else Settled (RejectsWith e))) as (Hlog0 & Hfw0 & Hc0).
    { rewrite Hw0. unfold catch_block, after_try, finish, finally, warn. simpl.
      by destruct (kPassThrough ev'); [destruct (get_stack e)|];
        destruct proxy. }
    clear Hw0 Hd. unfold w, kDispatchFetch. fold w0.
    destruct (kPassThrough ev'); [destruct (get_stack e) as [stack|error]|].
    + unfold took_unhandled_path. destruct proxy.
      * destruct (run_env_forwarded fetch request true evs w0 _ _ Hc0)
          as (Hf & Hs & Hfw & _).
        rewrite Hs, Hfw, Hlog0, Hfw0. split; [done|]. split.
        -- unfold forwarded_outcome in Hf.
           by destruct (w_cont (run_env fetch request true evs w0)).
        -- exists (headers_delete "host" request).
           split; [done|]. split; [apply headers_delete_without|by eexists].
      * destruct (run_env_settled fetch request false evs w0 _ Hc0)
          as (Hc & Hs & Hfw & _).
        rewrite Hs, Hfw, Hc, Hlog0, Hfw0. split; [done|].
        split; [|done]. by rewrite Hc in Hwin.
    + destruct (run_env_settled fetch request proxy evs w0 _ Hc0)
        as (Hc & Hs & Hfw & _).
      by rewrite Hs, Hfw, Hc, Hlog0, Hfw0.
    + destruct (run_env_settled fetch request proxy evs w0 _ Hc0)
        as (Hc & Hs & Hfw & _).
      by rewrite Hs, Hfw, Hc, Hlog0, Hfw0.
  - intros -> Hctx. rewrite decide_False in Hd by (by intros H).
    destruct (ctx_only_run
                (handler (FetchPayload
                            (if proxy then clone request else request)))
                (new_FetchEvent (if proxy then clone request else request))
                Hctx) as (e' & He' & Hresp & _).
    rewrite Hrun in He'. simpl in He'. injection He' as <-.
    assert (w_cont w0 = AwaitResponse None ∧ w_forwarded w0 = []
            ∧ log (w_scope w0) = log sc') as (Hc0 & Hfw0 & Hlog0).
    { unfold w0, kDispatchFetch_start. rewrite Hd. simpl. by rewrite Hresp. }
    destruct (unanswered_run fetch request proxy evs w0 Hc0 Hfw0)
      as [Hun Hsc].
    unfold w, kDispatchFetch. fold w0. by rewrite Hsc.
Qed.

Lemma module_fetch_handler_throws_witness :
  log (w_scope
         (kDispatchFetch Samples.fetch100 Samples.req true
            (kAddModuleFetchListener
               (λ _, MPassThroughOnException ~> Throw Samples.boom)
               (new_Scope true))
            [] [Settle 100 (Fulfils Samples.upstreamResponse); Resume]))
  = [VString "Error: boom"]
  ∧ took_unhandled_path Samples.fetch100 Samples.req true
      (kDispatchFetch Samples.fetch100 Samples.req true
         (kAddModuleFetchListener
            (λ _, MPassThroughOnException ~> Throw Samples.boom)
            (new_Scope true))
         [] [Settle 100 (Fulfils Samples.upstreamResponse); Resume])
  ∧ w_cont
      (kDispatchFetch Samples.fetch100 Samples.req true
         (kAddModuleFetchListener (λ _, MPassThroughOnException ~> Throw VNull)
            (new_Scope true))
         [] [Settle 100 (Fulfils Samples.upstreamResponse); Resume])
    = Settled (RejectsWith (cannot_read "stack" "null"))
  ∧ unanswered Samples.fetch100 Samples.req true
      (kDispatchFetch Samples.fetch100 Samples.req true
         (kAddModuleFetchListener (λ _, Throw VUndefined) (new_Scope true))
         [] [Settle 100 (Fulfils Samples.upstreamResponse); Resume]).
Proof.
  destruct (module_fetch_handler_throws Samples.fetch100 Samples.req true
              (new_Scope true)
              (λ _, MPassThroughOnException ~> Throw Samples.boom)
              [] [Settle 100 (Fulfils Samples.upstreamResponse); Resume]
              (FetchEventMethods.passThroughOnException
                 (new_FetchEvent Samples.req)).1
              Samples.boom (scope_wf_new true) eq_refl eq_refl)
    as [[H1 H2] _]; [discriminate|].
  destruct (module_fetch_handler_throws Samples.fetch100 Samples.req true
              (new_Scope true) (λ _, MPassThroughOnException ~> Throw VNull)
              [] [Settle 100 (Fulfils Samples.upstreamResponse); Resume]
              (FetchEventMethods.passThroughOnException
                 (new_FetchEvent Samples.req)).1
              VNull (scope_wf_new true) eq_refl eq_refl)
    as [[H3 _] _]; [discriminate|].
  destruct (module_fetch_handler_throws Samples.fetch100 Samples.req true
              (new_Scope true) (λ _, Throw VUndefined)
              [] [Settle 100 (Fulfils Samples.upstreamResponse); Resume]
              (new_FetchEvent Samples.req)
              VUndefined (scope_wf_new true) eq_refl eq_refl)
    as [_ H4].
  split; [exact H1|]. split; [exact H2|]. split; [exact H3|].
  by apply H4.
Defined.

Lemma undefined_is_unanswered_step fetch request proxy pr w ev :
  undefined_is_unanswered fetch request proxy pr w →
  undefined_is_unanswered fetch request proxy pr (step fetch request proxy w ev).
Proof.
  unfold undefined_is_unanswered. intros [[Hc Hfw]|[Hst Hu]].
  - destruct ev as [p s| |code]; simpl; [by left| |by left].
    unfold kDispatchFetch_resume. rewrite Hc.
    destruct (promise_state (w_history w) pr) eqn:Hpr.
    + left. by rewrite Hc.
    + right. case_decide as Hv.
      * destruct (after_try_unhandled fetch request proxy w Hfw) as [Hp _].
        assert (w_history (after_try fetch request proxy (finally w))
                = w_history w) as ->.
        { unfold after_try, finish, finally. by destruct proxy. }
        rewrite Hpr. split; [done|]. done.
      * simpl. rewrite Hpr. split; [done|]. by intros [= ->].
    + right.
      assert (w_history (catch_block fetch request proxy e w) = w_history w)
        as ->.
      { unfold catch_block, after_try, finish, finally.
        by destruct (kPassThrough _); [destruct (get_stack _)|]; destruct proxy. }
      rewrite Hpr. split; done.
  - right.
    assert (promise_state (w_history (step fetch request proxy w ev)) pr
            = promise_state (w_history w) pr) as ->.
    { destruct ev as [p s| |code]; simpl; [| |done].
      - destruct (settle_extends p s (w_history w)) as [later ->].
        by rewrite promise_state_stable.
      - f_equal. unfold kDispatchFetch_resume, catch_block, after_try, finish,
                   finally.
        repeat (case_match; simpl; try done). }
    split; [done|]. intros Hundef.
    by apply took_unhandled_path_step, Hu.
Qed.

(** X11.  A listener has responded, nothing was rethrown after the
    fan-out, and the promise stored as the response is fulfilled with
    [undefined].  Then the dispatch treats the request as unanswered
    although [respondWith] succeeded: when it resumes it closes the window
    and goes to the forwarder with [proxy], or rejects with the
    unhandled-request error without it. *)
Theorem undefined_response_counts_as_none :
  ∀ fetch request (proxy : bool) sc h evs pr,
    w_cont (kDispatchFetch_start fetch request proxy sc h)
    = AwaitResponse (Some pr) →
    let w := kDispatchFetch fetch request proxy sc h evs in
    promise_state (w_history w) pr = Fulfilled VUndefined →
    took_unhandled_path fetch request proxy w
    ∨ (w_cont w = AwaitResponse (Some pr)
       ∧ took_unhandled_path fetch request proxy
           (step fetch request proxy w Resume)).
Proof.
  intros fetch request proxy sc h evs pr Hc0 w Hundef.
  set (w0 := kDispatchFetch_start fetch request proxy sc h) in *.
  assert (w_forwarded w0 = []) as Hfw0.
  { revert Hc0. unfold w0, kDispatchFetch_start.
    destruct (d_result _); [done|].
    unfold catch_block, after_try, finish, finally.
    by destruct (kPassThrough _); [destruct (get_stack _)|]; destruct proxy. }
  assert (undefined_is_unanswered fetch request proxy pr w) as Hinv.
  { unfold w, kDispatchFetch. fold w0.
    apply run_env_inv; [intros; by apply undefined_is_unanswered_step|by left]. }
  destruct Hinv as [[Hc Hfw]|[_ Hu]]; [|left; by apply Hu].
  right. split; [done|]. simpl. unfold kDispatchFetch_resume.
  rewrite Hc, Hundef. rewrite decide_True by done.
  by apply after_try_unhandled.
Qed.

Lemma undefined_response_counts_as_none_witness :
  w_cont (kDispatchFetch Samples.fetch100 Samples.req false
            (Samples.scope_with
               [Samples.function 1
                  (MRespondWith (Thenable (Ref 5)) ~> Ret tt)]) []
            [Settle 5 (Fulfils VUndefined); Resume])
  = Settled (RejectsWith unhandled_error).
Proof.
  destruct (undefined_response_counts_as_none Samples.fetch100 Samples.req
              false
              (Samples.scope_with
                 [Samples.function 1
                    (MRespondWith (Thenable (Ref 5)) ~> Ret tt)]) []
              [Settle 5 (Fulfils VUndefined); Resume]
              (Ref 5)) as [[_ [_ H]]|[H _]].
  - reflexivity.
  - reflexivity.
  - exact H.
  - revert H. by vm_compute.
Defined.

(** ** Calls on the event between the fan-out and the resumption *)

Lemma step_keeps_response fetch request proxy pr w ev :
  kResponse (w_event w) = Some pr →
  kResponse (w_event (step fetch request proxy w ev)) = Some pr.
Proof.
  intros H. destruct ev as [p s| |code]; simpl; [done| |].
  - unfold kDispatchFetch_resume, catch_block, after_try, finish, finally.
    repeat (case_match; simpl; try done).
  - by apply (late_event_shape (λ e, kResponse e = Some pr));
      [apply kResponse_stable|].
Qed.

(** X12.  The fan-out ends with nothing to rethrow and with no response
    stored, and code of the program calls [respondWith] on the event before
    the dispatcher resumes.  The call succeeds, since the window is still
    open, and the event keeps the response; but the dispatcher had read the
    empty slot before it suspended, and takes the path of an unanswered
    request. *)
Theorem asynchronous_respondWith_is_ignored :
  ∀ fetch request (proxy : bool) sc h evs b r,
    d_result (priv_dispatchEvent
                (EFetch (new_FetchEvent
                           (if proxy then clone request else request))) sc)
    = inl b →
    kResponse
      (as_fetch
         (d_event (priv_dispatchEvent
                     (EFetch (new_FetchEvent
                                (if proxy then clone request else request)))
                     sc))
         (new_FetchEvent (if proxy then clone request else request)))
    = None →
    let w := kDispatchFetch fetch request proxy sc h
               (Late (MRespondWith r ~> Ret tt) :: Resume :: evs) in
    kResponse (w_event w) = Some (Promise_resolve r)
    ∧ took_unhandled_path fetch request proxy w.
Proof.
  intros fetch request proxy sc h evs b r Hres Hnone w.
  set (w0 := kDispatchFetch_start fetch request proxy sc h).
  set (ev0 := new_FetchEvent (if proxy then clone request else request)) in *.
  assert (w_cont w0 = AwaitResponse None ∧ w_forwarded w0 = []
          ∧ kResponse (w_event w0) = None ∧ kSent (w_event w0) = false)
    as (Hc0 & Hfw0 & Hr0 & Hs0).
  { unfold w0, kDispatchFetch_start. fold ev0. rewrite Hres. simpl.
    rewrite Hnone. repeat (split; [done|]).
    pose proof (fan_out_on_fetch (λ e, kSent e = false) (fetchListeners sc)
                  (set_wrappedError VUndefined sc) ev0 [] (kSent_stable false)
                  eq_refl) as Hk.
    unfold priv_dispatchEvent, EventTarget.dispatchEvent. simpl.
    destruct (EventTarget.fan_out _ _ _ _ _) as [[sc1 ev1] seen1].
    simpl in Hk. destruct (wrappedError sc1); by destruct ev1. }
  set (w1 := step fetch request proxy w0 (Late (MRespondWith r ~> Ret tt))).
  assert (kResponse (w_event w1) = Some (Promise_resolve r)
          ∧ w_cont w1 = AwaitResponse None ∧ w_forwarded w1 = [])
    as (Hr1 & Hc1 & Hfw1).
  { unfold w1. simpl. unfold lift_fetch, FetchEventMethods.respondWith.
    rewrite Hr0, Hs0. simpl. done. }
  set (w2 := step fetch request proxy w1 Resume).
  assert (took_unhandled_path fetch request proxy w2) as Hp2.
  { unfold w2. simpl. unfold kDispatchFetch_resume. rewrite Hc1.
    by apply after_try_unhandled. }
  assert (kResponse (w_event w2) = Some (Promise_resolve r)) as Hr2
    by by apply step_keeps_response.
  change w with (run_env fetch request proxy evs w2).
  apply (run_env_inv _ _ _
           (λ w', kResponse (w_event w') = Some (Promise_resolve r)
                  ∧ took_unhandled_path fetch request proxy w')); [|done].
  intros w' ev [Hr Hp]. split; [by apply step_keeps_response|].
  by apply took_unhandled_path_step.
Qed.

Lemma asynchronous_respondWith_is_ignored_witness :
  kResponse
    (w_event
       (kDispatchFetch Samples.fetch100 Samples.req false
          (Samples.scope_with [Samples.idle 1]) []
          [Late (MRespondWith (Plain Samples.responseA) ~> Ret tt); Resume]))
  = Some (Resolved Samples.responseA)
  ∧ took_unhandled_path Samples.fetch100 Samples.req false
      (kDispatchFetch Samples.fetch100 Samples.req false
         (Samples.scope_with [Samples.idle 1]) []
         [Late (MRespondWith (Plain Samples.responseA) ~> Ret tt); Resume]).
Proof.
  by apply (asynchronous_respondWith_is_ignored Samples.fetch100 Samples.req
              false (Samples.scope_with [Samples.idle 1]) [] [] true
              (Plain Samples.responseA)).
Defined.

Lemma members_are_tasks_step fetch request proxy w ev :
  members_are_tasks w → members_are_tasks (step fetch request proxy w ev).
Proof.
  unfold members_are_tasks. destruct ev as [p s| |code]; simpl.
  - done.
  - unfold kDispatchFetch_resume. intros Hm.
    destruct (w_cont w) as [[pr|]|up a|o] eqn:Hc.
    + destruct (promise_state (w_history w) pr).
      * by rewrite Hc.
      * case_decide; unfold after_try, finish, finally; [destruct proxy|];
          simpl; done.
      * unfold catch_block, after_try, finish, finally.
        destruct (kPassThrough _); [destruct (get_stack _)|]; destruct proxy; simpl; done.
    + unfold after_try, finish, finally. destruct proxy; simpl; done.
    + destruct (promise_state (w_history w) (Ref up)); simpl;
        [by rewrite Hc|done|done].
    + by rewrite Hc.
  - intros Hm. destruct (w_cont w) as [|up a|[v a|e]]; try done.
    + by apply (late_event_shape (λ e, members a `prefix_of` kWaitUntil e));
        [apply kWaitUntil_prefix_stable|].
    + by apply (late_event_shape (λ e, members a `prefix_of` kWaitUntil e));
        [apply kWaitUntil_prefix_stable|].
Qed.

Lemma members_are_tasks_start fetch request proxy sc h :
  members_are_tasks (kDispatchFetch_start fetch request proxy sc h).
Proof.
  unfold kDispatchFetch_start, members_are_tasks.
  destruct (d_result _); [done|].
  unfold catch_block, after_try, finish, finally.
  destruct (kPassThrough _); [destruct (get_stack _)|]; destruct proxy; simpl; done.
Qed.

(** X13.  The background future is built from the task list as it is when
    the dispatcher gets past the [await] of the response.  So its members
    are always an initial part of the event's task list; a task that code
    of the program queues while the dispatcher still awaits the response is
    a member; and when the dispatch resolves from that [await], the members
    are exactly the tasks queued up to then. *)
Theorem background_future_reads_tasks_at_resumption :
  ∀ fetch request (proxy : bool) sc h evs,
    let w := kDispatchFetch fetch request proxy sc h evs in
    (∀ v a, w_cont w = Settled (Resolves v a) →
            members a `prefix_of` kWaitUntil (w_event w))
    ∧ (∀ pr v p,
         w_cont w = AwaitResponse (Some pr) →
         promise_state (w_history w) pr = Fulfilled v → v ≠ VUndefined →
         w_cont (run_env fetch request proxy
                   [Late (MWaitUntil p ~> Ret tt); Resume] w)
         = Settled (Resolves v
                      (Promise_all (kWaitUntil (w_event w) ++ [p])
                                   (w_history w)))).
Proof.
  intros fetch request proxy sc h evs w. split.
  - intros v a Hc.
    assert (members_are_tasks w) as Hinv.
    { unfold w, kDispatchFetch.
      apply run_env_inv; [intros; by apply members_are_tasks_step|].
      apply members_are_tasks_start. }
    unfold members_are_tasks in Hinv. by rewrite Hc in Hinv.
  - intros pr v p Hc Hv Hu. simpl. unfold kDispatchFetch_resume. simpl.
    rewrite Hc, Hv. by rewrite decide_False.
Qed.

Lemma background_future_reads_tasks_at_resumption_witness :
  w_cont (run_env Samples.fetch100 Samples.req false
            [Late (MWaitUntil (Ref 2) ~> Ret tt); Resume]
            (kDispatchFetch Samples.fetch100 Samples.req false
               (Samples.scope_with
                  [Samples.function 1
                     (MWaitUntil (Ref 1)
                      ~> MRespondWith (Thenable (Ref 7)) ~> Ret tt)]) []
               [Settle 7 (Fulfils Samples.responseA)]))
  = Settled (Resolves Samples.responseA
               (mkAggregate [Ref 1; Ref 2]
                  [(7%nat, Fulfils Samples.responseA)])).
Proof.
  destruct (background_future_reads_tasks_at_resumption Samples.fetch100
              Samples.req false
              (Samples.scope_with
                 [Samples.function 1
                    (MWaitUntil (Ref 1)
                     ~> MRespondWith (Thenable (Ref 7)) ~> Ret tt)]) []
              [Settle 7 (Fulfils Samples.responseA)]) as [_ H].
  by apply (H (Ref 7) Samples.responseA (Ref 2)).
Defined.

(** ** A scheduled listener that throws *)

(** The scheduled listener the fan-out has reached throws [e]: the fan-out
    ends there, and the dispatch throws [e] unless [e] is [undefined]. *)
Lemma scheduled_dispatch_when_listener_throws
    sc ev0 pre s post sc1 ev1 seen1 ev2 e :
  reaches_scheduled_listener sc ev0 pre s post sc1 ev1 seen1 →
  listener_call (wrapped s) (EScheduled ev1) = (EScheduled ev2, inr e) →
  priv_dispatchEvent (EScheduled ev0) sc
  = mkDispatched (set_wrappedError e sc1)
      (EScheduled (ScheduledEventMethods.stopImmediatePropagation ev2))
      (seen1 ++ [mkInvocation (l_ref (wrapped s))
                   (ScheduledPayload (scheduledTime ev1) (cron ev1))])
      (if decide (e ≠ VUndefined) then inr e else inl true).
Proof.
  intros (Hls & Hpre & Hgo) Hcall.
  unfold priv_dispatchEvent, EventTarget.dispatchEvent. simpl.
  rewrite Hls, fan_out_app, Hpre. simpl. rewrite Hgo.
  unfold shim_call. rewrite Hcall. simpl.
  rewrite fan_out_stopped by done. simpl. by case_decide.
Qed.

(** X14.  The fan-out of a scheduled event has reached a listener and that
    listener throws [e].  The listeners registered after the thrower are
    not called, and the tasks queued before the throw stay in the event's
    list.  When [e] is not [undefined], [kDispatchScheduled] rejects with
    [e] and does not await these tasks, so the rejection does not wait for
    them.  When [e] is [undefined], nothing is rethrown: the dispatch
    awaits the tasks queued up to the throw. *)
Theorem scheduled_listener_error_rejects :
  ∀ now st cr sc h pre s post sc1 ev1 seen1 ev2 e,
    reaches_scheduled_listener sc
      (new_ScheduledEvent (default now st) (default "" cr))
      pre s post sc1 ev1 seen1 →
    listener_call (wrapped s) (EScheduled ev1) = (EScheduled ev2, inr e) →
    let r := kDispatchScheduled now st cr sc h in
    sr_invoked r
    = seen1 ++ [mkInvocation (l_ref (wrapped s))
                  (ScheduledPayload (default now st) (default "" cr))]
    ∧ sWaitUntil (sr_event r) = sWaitUntil ev2
    ∧ (e ≠ VUndefined →
       sr_awaits r = inl e
       ∧ ∀ h', scheduled_outcome r h' = ScheduledRejects e)
    ∧ (e = VUndefined →
       sr_awaits r = inr (Promise_all (sWaitUntil ev2) h)).
Proof.
  intros now st cr sc h pre s post sc1 ev1 seen1 ev2 e Hreach Hcall r.
  pose proof (scheduled_dispatch_when_listener_throws _ _ _ _ _ _ _ _ _ _
                Hreach Hcall) as Hd.
  assert (ScheduledPayload (scheduledTime ev1) (cron ev1)
          = ScheduledPayload (default now st) (default "" cr)) as Hpl.
  { destruct Hreach as (_ & Hpre & _).
    destruct (fan_out_payload pre (set_wrappedError VUndefined sc)
                (EScheduled (new_ScheduledEvent (default now st)
                               (default "" cr)))
                [] (ScheduledPayload (default now st) (default "" cr))
                eq_refl (Forall_nil_2 _)) as [Hp _].
    by rewrite Hpre in Hp. }
  rewrite Hpl in Hd.
  assert (r = mkScheduledRun (set_wrappedError e sc1)
                (ScheduledEventMethods.stopImmediatePropagation ev2)
                (seen1 ++ [mkInvocation (l_ref (wrapped s))
                             (ScheduledPayload (default now st)
                                               (default "" cr))])
                (if decide (e ≠ VUndefined) then inl e
                 else inr (Promise_all (sWaitUntil ev2) h))) as ->.
  { unfold r, kDispatchScheduled. rewrite Hd. simpl. by case_decide. }
  split; [done|]. split; [done|]. split.
  - intros Hdef. unfold scheduled_outcome. simpl.
    by rewrite decide_True by done.
  - by intros ->.
Qed.

Lemma scheduled_listener_error_rejects_witness :
  scheduled_outcome
    (kDispatchScheduled 42 None None
       (Samples.scheduled_scope_with
          [Samples.function 1 (MWaitUntil (Ref 1) ~> Throw Samples.boom);
           Samples.idle 2]) [])
    [(1%nat, Fulfils (VNumber 1))]
  = ScheduledRejects Samples.boom
  ∧ scheduled_outcome
      (kDispatchScheduled 42 None None
         (Samples.scheduled_scope_with
            [Samples.function 1 (MWaitUntil (Ref 1) ~> Throw VUndefined);
             Samples.idle 2]) [])
      [(1%nat, Fulfils (VNumber 1))]
    = ResolvesTo [VNumber 1].
Proof.
  destruct (scheduled_listener_error_rejects 42 None None
              (Samples.scheduled_scope_with
                 [Samples.function 1 (MWaitUntil (Ref 1) ~> Throw Samples.boom);
                  Samples.idle 2]) []
              []
              (mkShim 0 (Samples.function 1
                           (MWaitUntil (Ref 1) ~> Throw Samples.boom)))
              [mkShim 1 (Samples.idle 2)]
              (Samples.scheduled_scope_with
                 [Samples.function 1 (MWaitUntil (Ref 1) ~> Throw Samples.boom);
                  Samples.idle 2])
              (new_ScheduledEvent 42 "") []
              (ScheduledEventMethods.waitUntil (Ref 1)
                 (new_ScheduledEvent 42 "")).1
              Samples.boom) as (_ & _ & H & _).
  - repeat split; by vm_compute.
  - by vm_compute.
  - destruct (scheduled_listener_error_rejects 42 None None
                (Samples.scheduled_scope_with
                   [Samples.function 1 (MWaitUntil (Ref 1) ~> Throw VUndefined);
                    Samples.idle 2]) []
                []
                (mkShim 0 (Samples.function 1
                             (MWaitUntil (Ref 1) ~> Throw VUndefined)))
                [mkShim 1 (Samples.idle 2)]
                (Samples.scheduled_scope_with
                   [Samples.function 1
                      (MWaitUntil (Ref 1) ~> Throw VUndefined);
                    Samples.idle 2])
                (new_ScheduledEvent 42 "") []
                (ScheduledEventMethods.waitUntil (Ref 1)
                   (new_ScheduledEvent 42 "")).1
                VUndefined) as (_ & _ & _ & H').
    + repeat split; by vm_compute.
    + by vm_compute.
    + split; [apply H; discriminate|].
      unfold scheduled_outcome. rewrite (H' eq_refl). by vm_compute.
Defined.

(** ** Progress and the pass-through flag *)

(** X15.  The dispatcher suspends at most twice.  Resuming it does nothing
    while the promise it awaits is pending; and once the promises it can
    come to await have settled (the response promise, and the promise of
    the forwarder for the request without its [host] header), two
    resumptions take it to its outcome from wherever it stands. *)
Theorem dispatch_settles_within_two_resumptions :
  ∀ fetch request (proxy : bool) (w : World),
    (∀ pr, w_cont w = AwaitResponse (Some pr) →
           promise_state (w_history w) pr = Pending →
           step fetch request proxy w Resume = w)
    ∧ (∀ up a, w_cont w = AwaitFetch up a →
               promise_state (w_history w) (Ref up) = Pending →
               step fetch request proxy w Resume = w)
    ∧ ((∀ pr, w_cont w = AwaitResponse (Some pr) →
              promise_state (w_history w) pr ≠ Pending) →
       (∀ up a, w_cont w = AwaitFetch up a →
                promise_state (w_history w) (Ref up) ≠ Pending) →
       promise_state (w_history w)
                     (Ref (fetch (headers_delete "host" request))) ≠ Pending →
       ∃ o, w_cont (run_env fetch request proxy [Resume; Resume] w)
            = Settled o).
Proof.
  intros fetch request proxy w. split; [|split].
  - intros pr Hc Hp. simpl. unfold kDispatchFetch_resume. by rewrite Hc, Hp.
  - intros up a Hc Hp. simpl. unfold kDispatchFetch_resume. by rewrite Hc, Hp.
  - intros Hresp Hup Hfetch.
    assert (∀ w', w_history w' = w_history w →
                  (∃ o, w_cont w' = Settled o)
                  ∨ (∃ a, w_cont w'
                          = AwaitFetch (fetch (headers_delete "host" request)) a)
                  →
                  ∃ o, w_cont (kDispatchFetch_resume fetch request proxy w')
                       = Settled o) as Hsecond.
    { intros w' Hh [[o Ho]|[a Ha]]; unfold kDispatchFetch_resume.
      - rewrite Ho. by exists o.
      - rewrite Ha, Hh.
        destruct (promise_state (w_history w)
                    (Ref (fetch (headers_delete "host" request))));
          [done|by eexists|by eexists]. }
    simpl. apply Hsecond.
    + unfold kDispatchFetch_resume, catch_block, after_try, finish, finally.
      repeat (case_match; simpl; try done).
    + unfold kDispatchFetch_resume.
      destruct (w_cont w) as [[pr|]|up a|o] eqn:Hc.
      * specialize (Hresp pr eq_refl).
        destruct (promise_state (w_history w) pr); [done| |].
        -- case_decide; unfold after_try, finish, finally; [destruct proxy|];
             simpl; eauto.
        -- unfold catch_block, after_try, finish, finally.
           destruct (kPassThrough _); [destruct (get_stack _)|]; destruct proxy; simpl; eauto.
      * unfold after_try, finish, finally. destruct proxy; simpl; eauto.
      * specialize (Hup up a eq_refl).
        destruct (promise_state (w_history w) (Ref up)); [done| |];
          simpl; eauto.
      * rewrite Hc. eauto.
Qed.

Lemma dispatch_settles_within_two_resumptions_witness :
  ∃ o, w_cont (run_env Samples.fetch100 Samples.req true [Resume; Resume]
                 (kDispatchFetch Samples.fetch100 Samples.req true
                    (Samples.scope_with [Samples.idle 1])
                    [(100%nat, Rejects Samples.boom)] []))
       = Settled o.
Proof.
  destruct (dispatch_settles_within_two_resumptions Samples.fetch100
              Samples.req true
              (kDispatchFetch Samples.fetch100 Samples.req true
                 (Samples.scope_with [Samples.idle 1])
                 [(100%nat, Rejects Samples.boom)] [])) as (_ & _ & H).
  apply H.
  - intros pr Hc. revert Hc. by vm_compute.
  - intros up a Hc. revert Hc. by vm_compute.
  - by vm_compute.
Defined.

Lemma call_method_flag m e :
  ∃ e' err,
    call_method m (EFetch e) = (EFetch e', err)
    ∧ call_method m (EFetch (FetchEventMethods.passThroughOnException e).1)
      = (EFetch (FetchEventMethods.passThroughOnException e').1, err).
Proof.
  destruct m as [r| |p|]; simpl; unfold lift_fetch; simpl.
  - unfold FetchEventMethods.respondWith. simpl.
    case_bool_decide.
    + exists e, (Some (VError (DOMException
        "FetchEvent.respondWith() has already been called; it can only be called once."
        "InvalidStateError"))). by split.
    + destruct (kSent e) eqn:Hs.
      * exists e, (Some (VError (DOMException
          "Too late to call FetchEvent.respondWith(). It must be called synchronously in the event handler."
          "InvalidStateError"))). simpl. by rewrite Hs.
      * exists (set_kResponse (Promise_resolve r)
                  (FetchEventMethods.stopImmediatePropagation e)), None.
        simpl. unfold set_kResponse. simpl. by rewrite Hs.
  - by eexists _, _.
  - by eexists _, _.
  - by eexists _, _.
Qed.

Lemma run_flag {R} (p : Prog R) e :
  ∃ e' r,
    run p (EFetch e) = (EFetch e', r)
    ∧ run p (EFetch (FetchEventMethods.passThroughOnException e).1)
      = (EFetch (FetchEventMethods.passThroughOnException e').1, r).
Proof.
  revert e. induction p as [r|err|m k IHk catch IHc]; intros e.
  - by eexists _, _.
  - by eexists _, _.
  - destruct (call_method_flag m e) as (e1 & err & H1 & H2).
    cbn [run]. rewrite H1, H2.
    destruct err as [err|]; [apply IHc|apply IHk].
Qed.

Lemma step_flag fetch request proxy w ev :
  response_not_rejected w →
  step fetch request proxy (with_passThrough w) ev
  = with_passThrough (step fetch request proxy w ev).
Proof.
  intros Hok. destruct ev as [p s| |code]; simpl.
  - done.
  - unfold kDispatchFetch_resume, with_passThrough. simpl.
    destruct (w_cont w) as [[pr|]|up a|o] eqn:Hc; simpl.
    + destruct (promise_state (w_history w) pr) eqn:Hst.
      * by rewrite Hc.
      * case_decide; unfold after_try, finish, finally; [destruct proxy|];
          done.
      * by destruct (Hok pr e Hc).
    + unfold after_try, finish, finally. by destruct proxy.
    + destruct (promise_state (w_history w) (Ref up));
        unfold finish; simpl; by rewrite ?Hc.
    + by rewrite Hc.
  - unfold with_passThrough. simpl.
    destruct (run_flag code (w_event w)) as (e' & r & Hr1 & Hr2).
    simpl in Hr2. rewrite Hr1, Hr2. done.
Qed.

Lemma step_history_stable fetch request proxy w ev pr :
  promise_state (w_history w) pr ≠ Pending →
  promise_state (w_history (step fetch request proxy w ev)) pr
  = promise_state (w_history w) pr.
Proof.
  intros Hst. destruct ev as [p s| |code]; simpl; [| |done].
  - destruct (settle_extends p s (w_history w)) as [later ->].
    by rewrite promise_state_stable.
  - f_equal. unfold kDispatchFetch_resume, catch_block, after_try, finish,
               finally.
    repeat (case_match; simpl; try done).
Qed.

Lemma run_env_history_stable fetch request proxy evs w pr :
  promise_state (w_history w) pr ≠ Pending →
  promise_state (w_history (run_env fetch request proxy evs w)) pr
  = promise_state (w_history w) pr.
Proof.
  revert w. unfold run_env. induction evs as [|ev evs IH]; intros w Hst;
    [done|].
  simpl. rewrite IH.
  - by apply step_history_stable.
  - by rewrite step_history_stable.
Qed.

Lemma step_awaits_response fetch request proxy w ev awaited :
  w_cont (step fetch request proxy w ev) = AwaitResponse awaited →
  w_cont w = AwaitResponse awaited.
Proof.
  destruct ev as [p s| |code]; simpl; [done| |done].
  unfold kDispatchFetch_resume, catch_block, after_try, finish, finally.
  repeat (case_match; simpl; try done); congruence.
Qed.

(** X16.  The pass-through flag is read in the [catch] block only.  A call
    of [passThroughOnException] on the event of a running dispatch
    therefore changes nothing but the flag itself, whatever happens
    afterwards, as long as the response promise the dispatcher awaits is
    not rejected: continuation and outcome, log, task list and forwarded
    requests are those of the dispatch without the call. *)
Theorem passThrough_without_error_changes_nothing :
  ∀ fetch request (proxy : bool) (w : World) evs,
    (∀ pr e, w_cont w = AwaitResponse (Some pr) →
             promise_state
               (w_history (run_env fetch request proxy evs w)) pr
             ≠ Rejected e) →
    run_env fetch request proxy evs (with_passThrough w)
    = with_passThrough (run_env fetch request proxy evs w).
Proof.
  intros fetch request proxy w evs. revert w.
  induction evs as [|ev evs IH]; intros w Hok; [done|].
  change (run_env fetch request proxy (ev :: evs) (with_passThrough w))
    with (run_env fetch request proxy evs
            (step fetch request proxy (with_passThrough w) ev)).
  change (run_env fetch request proxy (ev :: evs) w)
    with (run_env fetch request proxy evs (step fetch request proxy w ev))
    in *.
  rewrite step_flag.
  - apply IH. intros pr e Hc. apply Hok.
    by apply (step_awaits_response fetch request proxy w ev).
  - intros pr e Hc Hst. apply (Hok pr e Hc).
    rewrite run_env_history_stable.
    + rewrite step_history_stable; [done|]. by rewrite Hst.
    + rewrite step_history_stable; by rewrite Hst.
Qed.

Lemma passThrough_without_error_changes_nothing_witness :
  w_cont (run_env Samples.fetch100 Samples.req true
            [Settle 7 (Fulfils Samples.responseA); Resume]
            (with_passThrough
               (kDispatchFetch_start Samples.fetch100 Samples.req true
                  (Samples.scope_with
                     [Samples.function 1
                        (MRespondWith (Thenable (Ref 7)) ~> Ret tt)]) [])))
  = Settled (Resolves Samples.responseA
               (mkAggregate [] [(7%nat, Fulfils Samples.responseA)])).
Proof.
  rewrite (passThrough_without_error_changes_nothing Samples.fetch100
             Samples.req true).
  - by vm_compute.
  - intros pr e Hc. injection Hc as <-. by vm_compute.
Defined.

(** ** What code can do to a fetch event *)

Lemma request_stable req : fetch_stable (λ e, request e = req).
Proof. fetch_stable_tac. Qed.

Lemma kPassThrough_stable : fetch_stable (λ e, kPassThrough e = true).
Proof. fetch_stable_tac. Qed.

Lemma stopped_stable : fetch_stable (λ e, stopped e = true).
Proof. fetch_stable_tac. Qed.

Lemma closed_response_stable x :
  fetch_stable (λ e, kSent e = true ∧ kResponse e = x).
Proof.
  split; [by intros e [? ?]|]. split; [|split; by intros ? [? ?]].
  intros r e [Hs Hr]. unfold FetchEventMethods.respondWith.
  case_bool_decide; [done|]. by rewrite Hs.
Qed.

(** X17.  Whatever code does with a fetch event through its methods, it
    cannot change the request, cannot open or close the window, cannot
    clear the pass-through flag or the stop flag, cannot take a task out of
    the list or reorder it, cannot replace a stored response, and cannot
    store one once the window is closed. *)
Theorem code_cannot_undo_event_state :
  ∀ (code : Prog unit) (ev : FetchEvent),
    ∃ ev' completion,
      run code (EFetch ev) = (EFetch ev', completion)
      ∧ request ev' = request ev
      ∧ kSent ev' = kSent ev
      ∧ (kPassThrough ev = true → kPassThrough ev' = true)
      ∧ (stopped ev = true → stopped ev' = true)
      ∧ kWaitUntil ev `prefix_of` kWaitUntil ev'
      ∧ (∀ pr, kResponse ev = Some pr → kResponse ev' = Some pr)
      ∧ (kSent ev = true → kResponse ev' = kResponse ev).
Proof.
  intros code ev.
  destruct (run code (EFetch ev)) as [ev1 completion] eqn:Hrun.
  assert (∀ Q, fetch_stable Q → Q ev → on_fetch Q ev1) as Hkeep.
  { intros Q HQ Hev. pose proof (run_on_fetch Q code ev HQ Hev) as H.
    by rewrite Hrun in H. }
  pose proof (Hkeep _ (request_stable (request ev)) eq_refl) as H1.
  destruct ev1 as [ev'|]; [|done]. simpl in H1.
  exists ev', completion. split; [done|]. split; [done|].
  split; [exact (Hkeep _ (kSent_stable (kSent ev)) eq_refl)|].
  split; [intros H; exact (Hkeep _ kPassThrough_stable H)|].
  split; [intros H; exact (Hkeep _ stopped_stable H)|].
  split; [exact (Hkeep _ (kWaitUntil_prefix_stable (kWaitUntil ev))
                   (reflexivity _))|].
  split; [intros pr H; exact (Hkeep _ (kResponse_stable pr) H)|].
  intros H.
  by destruct (Hkeep _ (closed_response_stable (kResponse ev)) (conj H eq_refl)).
Qed.

Lemma code_cannot_undo_event_state_witness :
  ∃ ev' completion,
    run (MRespondWith (Plain Samples.responseB)
         ~> MWaitUntil (Ref 9) ~> Ret tt)
        (EFetch (set_kSent Samples.respondedEvent))
    = (EFetch ev', completion)
    ∧ kResponse ev' = Some (Resolved Samples.responseA)
    ∧ kSent ev' = true.
Proof.
  destruct (code_cannot_undo_event_state
              (MRespondWith (Plain Samples.responseB)
               ~> MWaitUntil (Ref 9) ~> Ret tt)
              (set_kSent Samples.respondedEvent))
    as (ev' & completion & Hrun & _ & Hsent & _ & _ & _ & Hresp & _).
  exists ev', completion. split; [exact Hrun|].
  split; [by apply Hresp|exact Hsent].
Defined.
